(** * readscale.py: the timed serial polling loop of the scale reader

    A shallow embedding of [docs/reference/readscale.py] and the properties
    of its polling protocol.

    Conventions.
    - A Python [bytes] value is a [list byte]; a Python [str] is the list of
      its Unicode code points ([list N]).
    - Time is counted in whole microseconds ([N]); the source's float
      seconds are these divided by 10^6 ([CHAR_DELAY_MS / 1000.0] is
      [CHAR_DELAY_MS * 1000] microseconds).
    - The outside world (wall clock, serial line, console, Ctrl+C) is an
      explicit [World] value threaded through every call. *)

From Stdlib Require Import Strings.Ascii Strings.String Strings.Byte.
From Stdlib Require Import List NArith Arith Bool Lia.
Import ListNotations.

Local Open Scope N_scope.

(** ** Text *)

Definition str := list N.
Definition bytes := list byte.

(** [b"..."] literal. *)
Definition b (s : string) : bytes := list_byte_of_string s.

(** ["..."] literal (ASCII text). *)
Definition u (s : string) : str := map Byte.to_N (list_byte_of_string s).

Definition str_eqb (x y : str) : bool :=
  if list_eq_dec N.eq_dec x y then true else false.

Definition in_ranges (rs : list (N * N)) (c : N) : bool :=
  existsb (fun r => (fst r <=? c) && (c <=? snd r)) rs.

(** Code points for which [str.isspace()] holds; the same test decides
    [\s] of a [str] pattern and what [str.strip()] removes. *)
Definition space_ranges : list (N * N) :=
  [ (0x9, 0xD); (0x1C, 0x20); (0x85, 0x85); (0xA0, 0xA0); (0x1680, 0x1680);
    (0x2000, 0x200A); (0x2028, 0x2029); (0x202F, 0x202F); (0x205F, 0x205F);
    (0x3000, 0x3000) ].

(** Decimal digits (category Nd, Unicode 14.0 as shipped with CPython 3.11):
    [\d] of a [str] pattern is not limited to ASCII. *)
Definition digit_ranges : list (N * N) :=
  [ (0x30, 0x39); (0x660, 0x669); (0x6F0, 0x6F9); (0x7C0, 0x7C9);
    (0x966, 0x96F); (0x9E6, 0x9EF); (0xA66, 0xA6F); (0xAE6, 0xAEF);
    (0xB66, 0xB6F); (0xBE6, 0xBEF); (0xC66, 0xC6F); (0xCE6, 0xCEF);
    (0xD66, 0xD6F); (0xDE6, 0xDEF); (0xE50, 0xE59); (0xED0, 0xED9);
    (0xF20, 0xF29); (0x1040, 0x1049); (0x1090, 0x1099); (0x17E0, 0x17E9);
    (0x1810, 0x1819); (0x1946, 0x194F); (0x19D0, 0x19D9); (0x1A80, 0x1A89);
    (0x1A90, 0x1A99); (0x1B50, 0x1B59); (0x1BB0, 0x1BB9); (0x1C40, 0x1C49);
    (0x1C50, 0x1C59); (0xA620, 0xA629); (0xA8D0, 0xA8D9); (0xA900, 0xA909);
    (0xA9D0, 0xA9D9); (0xA9F0, 0xA9F9); (0xAA50, 0xAA59); (0xABF0, 0xABF9);
    (0xFF10, 0xFF19); (0x104A0, 0x104A9); (0x10D30, 0x10D39);
    (0x11066, 0x1106F); (0x110F0, 0x110F9); (0x11136, 0x1113F);
    (0x111D0, 0x111D9); (0x112F0, 0x112F9); (0x11450, 0x11459);
    (0x114D0, 0x114D9); (0x11650, 0x11659); (0x116C0, 0x116C9);
    (0x11730, 0x11739); (0x118E0, 0x118E9); (0x11950, 0x11959);
    (0x11C50, 0x11C59); (0x11D50, 0x11D59); (0x11DA0, 0x11DA9);
    (0x16A60, 0x16A69); (0x16AC0, 0x16AC9); (0x16B50, 0x16B59);
    (0x1D7CE, 0x1D7FF); (0x1E140, 0x1E149); (0x1E2F0, 0x1E2F9);
    (0x1E950, 0x1E959); (0x1FBF0, 0x1FBF9) ].

Definition is_space (c : N) : bool := in_ranges space_ranges c.   (* \s *)
Definition is_digit (c : N) : bool := in_ranges digit_ranges c.   (* \d *)
Definition is_sign (c : N) : bool := (c =? 0x2B) || (c =? 0x2D).  (* [+-] *)
Definition is_dot (c : N) : bool := c =? 0x2E.                    (* \. *)
Definition is_unit (c : N) : bool :=                              (* [a-zA-Z%] *)
  ((0x61 <=? c) && (c <=? 0x7A)) || ((0x41 <=? c) && (c <=? 0x5A)) || (c =? 0x25).

(** ** [bytes.decode(errors="ignore")]

    The codec is UTF-8.  A byte that cannot start a sequence is dropped; a
    lead byte whose continuation is wrong is dropped together with the
    continuation bytes accepted so far, and decoding resumes at the
    offending byte; a sequence cut short by the end of the data is dropped
    whole. *)

Definition is_cont (c : N) : bool := (0x80 <=? c) && (c <=? 0xBF).

Fixpoint utf8_ignore (bs : list N) : str :=
  match bs with
  | [] => []
  | c :: r1 =>
    if c <? 0x80 then c :: utf8_ignore r1
    else if c <? 0xC2 then utf8_ignore r1
    else if c <? 0xE0 then
      match r1 with
      | [] => []
      | c2 :: r2 =>
        if is_cont c2
        then ((c - 0xC0) * 64 + (c2 - 0x80)) :: utf8_ignore r2
        else utf8_ignore r1
      end
    else if c <? 0xF0 then
      match r1 with
      | [] => []
      | c2 :: r2 =>
        if negb (is_cont c2)
           || (if c2 <? 0xA0 then c =? 0xE0 else c =? 0xED)
        then utf8_ignore r1
        else
          match r2 with
          | [] => []
          | c3 :: r3 =>
            if is_cont c3
            then ((c - 0xE0) * 4096 + (c2 - 0x80) * 64 + (c3 - 0x80))
                   :: utf8_ignore r3
            else utf8_ignore r2
          end
      end
    else if c <? 0xF5 then
      match r1 with
      | [] => []
      | c2 :: r2 =>
        if negb (is_cont c2)
           || (if c2 <? 0x90 then c =? 0xF0 else c =? 0xF4)
        then utf8_ignore r1
        else
          match r2 with
          | [] => []
          | c3 :: r3 =>
            if negb (is_cont c3) then utf8_ignore r2
            else
              match r3 with
              | [] => []
              | c4 :: r4 =>
                if is_cont c4
                then ((c - 0xF0) * 262144 + (c2 - 0x80) * 4096
                      + (c3 - 0x80) * 64 + (c4 - 0x80)) :: utf8_ignore r4
                else utf8_ignore r3
              end
          end
      end
    else utf8_ignore r1
  end.

Definition decode_ignore (line : bytes) : str :=
  utf8_ignore (map Byte.to_N line).

(** ** [str.strip()] *)

Fixpoint lstrip (s : str) : str :=
  match s with
  | c :: t => if is_space c then lstrip t else s
  | [] => []
  end.

Definition strip (s : str) : str := rev (lstrip (rev (lstrip s))).

(** ** Regular expressions

    The fragment of [re] that [RE_WEIGHT] uses, with the backtracking
    semantics of the [re] module: a greedy repetition tries the longest run
    first and gives characters back one at a time; an optional item is tried
    present first, absent second; the first alternative that lets the rest
    of the pattern succeed wins. *)

Inductive regex :=
| Class (p : N -> bool)                (* one character of a class *)
| Repeat (p : N -> bool) (min : nat)   (* class*, class+ : greedy, at least [min] *)
| Cat (r1 r2 : regex)                  (* r1 r2 *)
| Opt (r : regex)                      (* r? , (?:r)? *)
| Group (i : nat) (r : regex).         (* ( r ), group number [i] *)

(** Groups that took part in the match, most recent binding first. *)
Definition groups := list (nat * str).

Fixpoint group (g : groups) (i : nat) : option str :=
  match g with
  | [] => None
  | (j, s) :: g' => if Nat.eqb i j then Some s else group g' i
  end.

Fixpoint run_length (p : N -> bool) (s : str) : nat :=
  match s with
  | c :: t => if p c then S (run_length p t) else O
  | [] => O
  end.

Section Backtrack.
Variable A : Type.

(** Try the continuation after [n] characters, then [n-1], ... down to
    [min]. *)
Fixpoint give_back (min : nat) (s : str) (k : str -> option A) (n : nat)
  : option A :=
  if Nat.ltb n min then None
  else
    match k (skipn n s) with
    | Some a => Some a
    | None =>
      match n with
      | O => None
      | S n' => give_back min s k n'
      end
    end.

(** [bt r s g k]: match [r] at the head of [s] with the groups [g] bound
    so far, then run the rest of the pattern [k] on what is left. *)
Fixpoint bt (r : regex) (s : str) (g : groups)
         (k : str -> groups -> option A) {struct r} : option A :=
  match r with
  | Class p =>
    match s with
    | c :: t => if p c then k t g else None
    | [] => None
    end
  | Repeat p min =>
    give_back min s (fun rest => k rest g) (run_length p s)
  | Cat r1 r2 =>
    bt r1 s g (fun s1 g1 => bt r2 s1 g1 k)
  | Opt r1 =>
    match bt r1 s g k with
    | Some a => Some a
    | None => k s g
    end
  | Group i r1 =>
    bt r1 s g
       (fun s1 g1 =>
          k s1 ((i, firstn (length s - length s1) s) :: g1))
  end.
End Backtrack.

Arguments give_back {A}.
Arguments bt {A}.

(** [pattern.match(s)] at one position: the groups of the first successful
    alternative. *)
Definition match_here (r : regex) (s : str) : option groups :=
  bt r s [] (fun _ g => Some g).

(** [pattern.search(s)]: the match at the leftmost position that has one;
    the position at the end of the text is tried as well. *)
Fixpoint search (r : regex) (s : str) : option groups :=
  match match_here r s with
  | Some g => Some g
  | None =>
    match s with
    | [] => None
    | _ :: t => search r t
    end
  end.

(** [RE_WEIGHT = re.compile(r'([+-]?\d+(?:\.\d+)?)\s*([a-zA-Z%]+)?')] *)
Definition RE_WEIGHT : regex :=
  Cat (Group 1 (Cat (Opt (Class is_sign))
               (Cat (Repeat is_digit 1)
                    (Opt (Cat (Class is_dot) (Repeat is_digit 1))))))
      (Cat (Repeat is_space 0)
           (Opt (Group 2 (Repeat is_unit 1)))).

(** ** Readings *)

(** One element of [readings]: [(w, u or "", raw)].  [w] is what
    [m.groups()] gives for group 1, so it is [None] or a [str]. *)
Definition Reading : Type := option str * str * str.

Definition reading_w (r : Reading) : option str := fst (fst r).
Definition reading_u (r : Reading) : str := snd (fst r).
Definition reading_raw (r : Reading) : str := snd r.

(** [u or ""] *)
Definition or_empty (x : option str) : str :=
  match x with
  | Some (c :: t) => c :: t
  | _ => []
  end.

(** The parse step of [read_window] on an already decoded and stripped,
    non-empty line [raw]. *)
Definition parse_raw (raw : str) : option Reading :=
  match search RE_WEIGHT raw with
  | Some m => Some (group m 1, or_empty (group m 2), raw)
  | None => None
  end.

(** What one non-empty [line] returned by [ser.readline()] contributes to
    [readings]. *)
Definition parse_line (line : bytes) : option Reading :=
  match strip (decode_ignore line) with
  | [] => None
  | raw => parse_raw raw
  end.

(** ** The outside world *)

(** What a [print] call writes. *)
Inductive text :=
| Line (s : str)                                   (* print(s) *)
| Report (ts : N) (w : option str) (u raw : str).  (* print(f"{ts}  {w} {u}   (raw: {raw})") *)

Inductive event :=
| Opened (port : str) (baud timeout : N)  (* serial.Serial(port, baud, timeout=...) *)
| Wrote (data : bytes)                    (* ser.write(data) *)
| Slept (d : N)                           (* time.sleep(d) *)
| Readline (line : bytes)                 (* ser.readline() returned line *)
| Printed (t : text)                      (* print(...) *)
| Closed.                                 (* the with block closed the port *)

Record World := mkWorld {
  clock : N;                (* wall clock, microseconds *)
  rx : list (N * bytes);    (* the coming ser.readline() calls: time blocked, bytes returned *)
  lag : list N;             (* by how much the coming time.sleep() calls oversleep *)
  sigint : option nat;      (* library calls left before Ctrl+C is delivered; None: never *)
  trace : list event        (* effects so far, oldest first *)
}.

(** The serial port object. *)
Record Serial := mkSerial { port : str; baudrate : N; timeout : N }.

(** A call either returns or raises [KeyboardInterrupt]. *)
Inductive outcome (A : Type) :=
| Ok (a : A)
| KeyboardInterrupt.

Arguments Ok {A} a.
Arguments KeyboardInterrupt {A}.

Definition M (A : Type) : Type := World -> outcome A * World.

Definition ret {A} (a : A) : M A := fun w => (Ok a, w).

Definition bind {A B} (m : M A) (f : A -> M B) : M B :=
  fun w =>
    match m w with
    | (Ok a, w') => f a w'
    | (KeyboardInterrupt, w') => (KeyboardInterrupt, w')
    end.

Notation "x <- m ;; k" := (bind m (fun x => k))
  (at level 61, m at next level, right associativity).
Notation "m ;; k" := (bind m (fun _ => k))
  (at level 61, right associativity).

Definition advance (d : N) (w : World) : World :=
  mkWorld (clock w + d) (rx w) (lag w) (sigint w) (trace w).

Definition log (e : event) (w : World) : World :=
  mkWorld (clock w) (rx w) (lag w) (sigint w) (trace w ++ [e]).

(** Ctrl+C is delivered inside a library call, which then raises instead
    of completing. *)
Definition deliver_signal : M unit :=
  fun w =>
    match sigint w with
    | None => (Ok tt, w)
    | Some (S n) => (Ok tt, mkWorld (clock w) (rx w) (lag w) (Some n) (trace w))
    | Some O => (KeyboardInterrupt, mkWorld (clock w) (rx w) (lag w) None (trace w))
    end.

(** A library call: Ctrl+C is looked for first, then the call acts on the
    world. *)
Definition effect {A} (f : World -> A * World) : M A :=
  deliver_signal ;; (fun w => let (a, w') := f w in (Ok a, w')).

(** [time.time()] *)
Definition time_time : M N := effect (fun w => (clock w, w)).

(** [datetime.now()] *)
Definition datetime_now : M N := effect (fun w => (clock w, w)).

(** [time.sleep(d)]: at least [d]. *)
Definition time_sleep (d : N) : M unit :=
  effect (fun w =>
    let w1 := mkWorld (clock w + d + hd 0 (lag w)) (rx w) (tl (lag w))
                      (sigint w) (trace w) in
    (tt, log (Slept d) w1)).

(** [ser.write(data)] *)
Definition ser_write (ser : Serial) (data : bytes) : M unit :=
  effect (fun w => (tt, log (Wrote data) w)).

(** [ser.readline()]: what the line delivers next; with nothing left on
    the line the call gives up after the port's timeout and returns [b""]. *)
Definition ser_readline (ser : Serial) : M bytes :=
  effect (fun w =>
    match rx w with
    | (dt, line) :: rest =>
      (line, log (Readline line)
               (mkWorld (clock w + dt) rest (lag w) (sigint w) (trace w)))
    | [] => ([], log (Readline []) (advance (timeout ser) w))
    end).

(** [print(t)] *)
Definition print (t : text) : M unit :=
  effect (fun w => (tt, log (Printed t) w)).

(** [for x in xs: body(x)] *)
Fixpoint for_each {A} (xs : list A) (body : A -> M unit) : M unit :=
  match xs with
  | [] => ret tt
  | x :: rest => body x ;; for_each rest body
  end.

(** [for _ in range(n): body] *)
Fixpoint for_range (n : nat) (body : M unit) : M unit :=
  match n with
  | O => ret tt
  | S n' => body ;; for_range n' body
  end.

(** ** The program *)

(** The module-level constants. *)
Record Config := mkConfig {
  PORT : str;
  BAUD : N;
  CMD : bytes;
  REPEATS_PER_BURST : nat;
  LINE_DELAY_MS : N;
  CHAR_DELAY_MS : N;
  READ_WINDOW_MS : N;
  ONLY_PRINT_ON_CHANGE : bool
}.

Definition config : Config :=
  {| PORT := u "/dev/cu.usbserial-FTE910QB";
     BAUD := 9600;
     CMD := b "@P<CR><LF>";
     REPEATS_PER_BURST := 13;
     LINE_DELAY_MS := 9;
     CHAR_DELAY_MS := 7;
     READ_WINDOW_MS := 160;
     ONLY_PRINT_ON_CHANGE := true |}.

Definition send_cmd (ser : Serial) (cmd : bytes) (char_delay_s line_delay_s : N)
  : M unit :=
  for_each cmd (fun c => ser_write ser [c] ;; time_sleep char_delay_s) ;;
  time_sleep line_delay_s.

(** One turn of the [while time.time() < end] loop costs a line of [rx] or,
    on a silent line, the port's timeout plus the 2 ms pause; [fuel] bounds
    the number of turns and [turns_left] is always enough (see
    [runs_read_window]). *)
Fixpoint read_loop (fuel : nat) (ser : Serial) (end_ : N)
         (readings : list Reading) : M (list Reading) :=
  match fuel with
  | O => ret readings
  | S fuel' =>
    now <- time_time ;;
    if now <? end_ then
      line <- ser_readline ser ;;
      match line with
      | [] => time_sleep 2000 ;; read_loop fuel' ser end_ readings
      | _ =>
        match parse_line line with
        | Some r => read_loop fuel' ser end_ (readings ++ [r])
        | None => read_loop fuel' ser end_ readings
        end
      end
    else ret readings
  end.

(** A bound on the turns of the loop while [left] microseconds remain:
    one for every line still to come, one for every silent stretch of
    timeout and pause that fits into [left], and the last one that finds
    the deadline passed. *)
Definition turns_left (ser : Serial) (left : N) (w : World) : nat :=
  length (rx w) + N.to_nat ((left + timeout ser + 1999) / (timeout ser + 2000)) + 1.

Definition read_window (ser : Serial) (window_s : N) : M (list Reading) :=
  now <- time_time ;;
  let end_ := now + window_s in
  fun w => read_loop (turns_left ser window_s w) ser end_ [] w.

(** [x == y] on values that are [None] or a [str]. *)
Definition same_text (x y : option str) : bool :=
  match x, y with
  | Some s, Some t => str_eqb s t
  | None, None => true
  | _, _ => false
  end.

(** Step 1 of the loop body: the burst of commands. *)
Definition burst (cfg : Config) (ser : Serial) : M unit :=
  let char_delay_s := CHAR_DELAY_MS cfg * 1000 in
  let line_delay_s := LINE_DELAY_MS cfg * 1000 in
  for_range (REPEATS_PER_BURST cfg)
            (send_cmd ser (CMD cfg) char_delay_s line_delay_s).

(** One turn of [while True]. *)
Definition poll_cycle (cfg : Config) (ser : Serial) (last_weight : option str)
  : M (option str) :=
  let window_s := READ_WINDOW_MS cfg * 1000 in
  burst cfg ser ;;
  readings <- read_window ser window_s ;;
  match rev readings with
  | (w, un, raw) :: _ =>
    if negb (ONLY_PRINT_ON_CHANGE cfg) || negb (same_text w last_weight)
    then
      ts <- datetime_now ;;
      print (Report ts w un raw) ;;
      ret w
    else ret last_weight
  | [] => ret last_weight
  end.

(** The first [cycles] turns of [while True]. *)
Fixpoint while_true (cycles : nat) (cfg : Config) (ser : Serial)
         (last_weight : option str) : M (option str) :=
  match cycles with
  | O => ret last_weight
  | S n =>
    last_weight' <- poll_cycle cfg ser last_weight ;;
    while_true n cfg ser last_weight'
  end.

Inductive status :=
| Looping      (* still inside while True after the given number of turns *)
| Returned     (* main() returned *)
| Propagated.  (* KeyboardInterrupt left main() *)

Definition banner : str := u "Press Ctrl+C to stop." ++ [0xA].
Definition stopped : str := 0xA :: u "Stopped.".

(** [main()], followed for at most [cycles] turns of its loop.  The port
    opens; failures of the serial line itself are not part of this model,
    [KeyboardInterrupt] is the only exception. *)
Definition main (cfg : Config) (cycles : nat) (w : World) : status * World :=
  let ser := mkSerial (PORT cfg) (BAUD cfg) 20000 in
  let w := log (Opened (PORT cfg) (BAUD cfg) 20000) w in
  match print (Line banner) w with
  | (KeyboardInterrupt, w) => (Propagated, log Closed w)
  | (Ok _, w) =>
    match while_true cycles cfg ser None w with
    | (Ok _, w) => (Looping, w)
    | (KeyboardInterrupt, w) =>
      match print (Line stopped) w with
      | (Ok _, w) => (Returned, log Closed w)
      | (KeyboardInterrupt, w) => (Propagated, log Closed w)
      end
    end
  end.

(** ** Reading a trace *)

Definition writes (evs : list event) : list bytes :=
  flat_map (fun e => match e with Wrote d => [d] | _ => [] end) evs.

Definition sleeps (evs : list event) : list N :=
  flat_map (fun e => match e with Slept d => [d] | _ => [] end) evs.

Definition readlines (evs : list event) : list bytes :=
  flat_map (fun e => match e with Readline l => [l] | _ => [] end) evs.

Definition prints (evs : list event) : list text :=
  flat_map (fun e => match e with Printed t => [t] | _ => [] end) evs.

Definition closes (evs : list event) : nat :=
  length (filter (fun e => match e with Closed => true | _ => false end) evs).

Definition total (ds : list N) : N := fold_right N.add 0 ds.

Definition opt_list {A} (x : option A) : list A :=
  match x with
  | Some a => [a]
  | None => []
  end.

(** The readings that a sequence of lines returned by [ser.readline()]
    gives, in arrival order. *)
Definition readings_of (lines : list bytes) : list Reading :=
  flat_map (fun l => opt_list (parse_line l)) lines.

(** [readings[-1]] of the lines read, when [readings] is not empty. *)
Definition selected (evs : list event) : option Reading :=
  hd_error (rev (readings_of (readlines evs))).

(** The events of one [send_cmd]: every byte written on its own and
    followed by the per-character pause, then the per-command pause. *)
Definition cmd_events (cmd : bytes) (char_delay_s line_delay_s : N)
  : list event :=
  flat_map (fun c => [Wrote [c]; Slept char_delay_s]) cmd
  ++ [Slept line_delay_s].

(** [m], started in [w], returns: Ctrl+C stays away, and the value
    returned, the world left behind and the events added satisfy [Q]. *)
Definition runs {A} (m : M A) (w : World)
           (Q : A -> World -> list event -> Prop) : Prop :=
  exists a w' evs,
    m w = (Ok a, w') /\ sigint w' = None /\ trace w' = trace w ++ evs
    /\ Q a w' evs.

(** What a turn of [while True] whose events are [evs] prints, and what
    it leaves in [last_weight]. *)
Definition turn_reports (cfg : Config) (last_weight : option str)
           (evs : list event) (last_weight' : option str) : Prop :=
  match selected evs with
  | None => prints evs = [] /\ last_weight' = last_weight
  | Some (w, un, raw) =>
    if negb (ONLY_PRINT_ON_CHANGE cfg) || negb (same_text w last_weight)
    then (exists ts, prints evs = [Report ts w un raw]) /\ last_weight' = w
    else prints evs = [] /\ last_weight' = last_weight
  end.

(** [run cfg ser l w turns l' w']: started with [last_weight = l] in the
    world [w], the loop makes [length turns] turns that Ctrl+C does not
    interrupt; [turns] gives, turn by turn, the events of the turn and
    [last_weight] at its end; the loop is then at [last_weight = l'] in the
    world [w']. *)
Inductive run (cfg : Config) (ser : Serial)
  : option str -> World -> list (list event * option str)
    -> option str -> World -> Prop :=
| run_nil l w : run cfg ser l w [] l w
| run_cons l w evs l1 w1 turns l2 w2 :
    poll_cycle cfg ser l w = (Ok l1, w1) ->
    trace w1 = trace w ++ evs ->
    run cfg ser l1 w1 turns l2 w2 ->
    run cfg ser l w ((evs, l1) :: turns) l2 w2.

(** [P] holds of every turn: of [last_weight] before it, its events, and
    [last_weight] after it. *)
Fixpoint each_turn (P : option str -> list event -> option str -> Prop)
         (l : option str) (turns : list (list event * option str)) : Prop :=
  match turns with
  | [] => True
  | (evs, l') :: rest => P l evs l' /\ each_turn P l' rest
  end.

(** The lines of text that a turn received: every line read, decoded and
    stripped, the blank ones left out. *)
Definition texts (evs : list event) : list str :=
  filter (fun raw => match raw with [] => false | _ => true end)
         (map (fun line => strip (decode_ignore line)) (readlines evs)).

(** The events that took the world from [w] to [w']. *)
Definition since (w w' : World) : list event :=
  skipn (length (trace w)) (trace w').

(** The turns of the first [n] passes through the loop body. *)
Fixpoint turns_of (n : nat) (cfg : Config) (ser : Serial) (l : option str)
         (w : World) : list (list event * option str) :=
  match n with
  | O => []
  | S n' =>
    match poll_cycle cfg ser l w with
    | (Ok l1, w1) => (since w w1, l1) :: turns_of n' cfg ser l1 w1
    | (KeyboardInterrupt, _) => []
    end
  end.

(** Turn number [i] of a run, counted from 0. *)
Definition turn (i : nat) (turns : list (list event * option str))
  : list event * option str :=
  nth i turns ([], None).

(** The value text of what was printed: [w] of every report. *)
Definition printed_values (ts : list text) : list (option str) :=
  flat_map (fun t => match t with
                     | Report _ w _ _ => [w]
                     | Line _ => []
                     end) ts.

(** ** Sample worlds *)

Definition the_port : Serial := mkSerial (PORT config) (BAUD config) 20000.

(** A line arrives 50 ms into a read window and is followed by silence
    until the window is over. *)
Definition one_reply (s : string) : list (N * bytes) :=
  (50000, b s ++ [x0d; x0a]) :: repeat (20000, []) 5.

(** The scale answers [+012.50 kg], [+012.50 kg], [+013.00 kg], one answer
    in each of three windows. *)
Definition three_replies_world : World :=
  mkWorld 0
          (one_reply "+012.50 kg" ++ one_reply "+012.50 kg"
           ++ one_reply "+013.00 kg")
          [] None [].

(** The scale answers [+012.50 kg] in each of three windows. *)
Definition same_reply_world : World :=
  mkWorld 0
          (one_reply "+012.50 kg" ++ one_reply "+012.50 kg"
           ++ one_reply "+012.50 kg")
          [] None [].

(** The three turns that the loop makes in each of these worlds. *)
Definition three_replies_turns : list (list event * option str) :=
  Eval vm_compute in turns_of 3 config the_port None three_replies_world.

Definition same_reply_turns : list (list event * option str) :=
  Eval vm_compute in turns_of 3 config the_port None same_reply_world.

(** Ctrl+C arrives in the fifth library call that the program makes:
    the second pause of the first command of the first burst. *)
Definition interrupted_world : World :=
  mkWorld 0 (one_reply "+012.50 kg") [] (Some 4%nat) [].

(** A reply with a stray byte in front that is not UTF-8. *)
Definition garbled_line : bytes := xff :: b "12.5 kg" ++ [x0d; x0a].

(** The number of bytes a code point takes in UTF-8. *)
Definition utf8_width (c : N) : nat :=
  if c <? 0x80 then 1 else if c <? 0x800 then 2
  else if c <? 0x10000 then 3 else 4.

(** How many bytes of [line] the decoder drops; the line is partly or
    wholly undecodable when it drops any. *)
Definition dropped_bytes (line : bytes) : nat :=
  length line
  - fold_right (fun c n => utf8_width c + n)%nat O (decode_ignore line).

(** [line], decoded and stripped, has a digit in it. *)
Definition has_digit (line : bytes) : bool :=
  existsb is_digit (strip (decode_ignore line)).

(** [m] with Ctrl+C pending, [k] library calls away: if [m] returns it
    has made at least [c] calls and Ctrl+C is still pending; if it raises,
    Ctrl+C has been delivered.  Either way it has added no more events than
    it has made calls, and has not closed the port. *)
Definition counts {A} (c : nat) (m : M A) : Prop :=
  forall w k, sigint w = Some k ->
    exists evs,
      trace (snd (m w)) = trace w ++ evs /\ closes evs = O /\
      match fst (m w) with
      | Ok _ =>
        exists j, sigint (snd (m w)) = Some j
                  /\ (length evs + j <= k)%nat /\ (j + c <= k)%nat
      | KeyboardInterrupt =>
        sigint (snd (m w)) = None /\ (length evs <= k)%nat
      end.

(** ** Shapes of text

    The vocabulary in which the properties of the pattern are stated. *)

Definition starts_with (p : N -> bool) (s : str) : bool :=
  match s with
  | c :: _ => p c
  | [] => false
  end.

(** [s] begins with a dot and a digit: a fraction the pattern would take. *)
Definition starts_fraction (s : str) : bool :=
  match s with
  | c :: t => is_dot c && starts_with is_digit t
  | [] => false
  end.

(** The three parts of [[+-]?\d+(?:\.\d+)?]. *)
Definition is_sign_part (sg : str) : bool :=
  match sg with
  | [] => true
  | [c] => is_sign c
  | _ => false
  end.

Definition is_digits (d : str) : bool :=
  match d with
  | [] => false
  | _ => forallb is_digit d
  end.

Definition is_fraction (f : str) : bool :=
  match f with
  | [] => true
  | c :: d => is_dot c && is_digits d
  end.

Definition number : regex :=
  Cat (Opt (Class is_sign))
      (Cat (Repeat is_digit 1) (Opt (Cat (Class is_dot) (Repeat is_digit 1)))).

Definition trailer : regex :=
  Cat (Repeat is_space 0) (Opt (Group 2 (Repeat is_unit 1))).

(** What [\s*([a-zA-Z%]+)?] adds to the groups: it never fails, and binds
    group 2 exactly when a unit character follows the white space. *)
Definition after_number (tail : str) (g : groups) : groups :=
  let t1 := skipn (run_length is_space tail) tail in
  match run_length is_unit t1 with
  | O => g
  | S n => (2%nat, firstn (S n) t1) :: g
  end.

(** [s] begins with a digit, or with a sign and a digit. *)
Definition starts_number (s : str) : bool :=
  starts_with is_digit s
  || match s with
     | c :: t => is_sign c && starts_with is_digit t
     | [] => false
     end.

Fixpoint ends_with (p : N -> bool) (s : str) : bool :=
  match s with
  | [] => false
  | [c] => p c
  | _ :: t => ends_with p t
  end.

(** [x] is the first numeric substring of [raw]: no digit comes before it,
    it is an optional sign, digits and an optional fraction, and it cannot
    be extended on either side. *)
Definition first_number (raw x : str) : Prop :=
  exists pre sg d f tail,
    raw = pre ++ sg ++ d ++ f ++ tail /\ x = sg ++ d ++ f /\
    existsb is_digit pre = false /\
    is_sign_part sg = true /\ is_digits d = true /\ is_fraction f = true /\
    (sg = [] -> ends_with is_sign pre = false) /\
    starts_with is_digit tail = false /\
    (f = [] -> starts_fraction tail = false).

(** ** Vocabulary of the further properties *)

(** The events of a read window in which [ser.readline()] returned
    [lines]: every read, and the 2 ms pause after each empty one. *)
Definition window_events (lines : list bytes) : list event :=
  flat_map (fun line =>
              match line with
              | [] => [Readline []; Slept 2000]
              | _ => [Readline line]
              end) lines.

(** The events of one burst, and the pauses it asks for in all. *)
Definition burst_events (cfg : Config) : list event :=
  concat (repeat (cmd_events (CMD cfg) (CHAR_DELAY_MS cfg * 1000)
                             (LINE_DELAY_MS cfg * 1000))
                 (REPEATS_PER_BURST cfg)).

Definition burst_time (cfg : Config) : N :=
  N.of_nat (REPEATS_PER_BURST cfg)
  * (N.of_nat (length (CMD cfg)) * (CHAR_DELAY_MS cfg * 1000)
     + LINE_DELAY_MS cfg * 1000).

(** Every value of [vs] differs from the one before it, [prev] being the
    one before the first. *)
Fixpoint changes (prev : option str) (vs : list (option str)) : Prop :=
  match vs with
  | [] => True
  | v :: rest => v <> prev /\ changes v rest
  end.

(** Everything the turns of a run printed, in order. *)
Definition all_prints (turns : list (list event * option str)) : list text :=
  flat_map (fun t => prints (fst t)) turns.


(** The reading that a printed report shows. *)
Definition reported (t : text) : option Reading :=
  match t with
  | Report _ w un raw => Some (w, un, raw)
  | Line _ => None
  end.

Definition all_reported (turns : list (list event * option str))
  : list Reading :=
  flat_map (fun t => opt_list (reported t)) (all_prints turns).

(** [readings[-1]] of every turn of a run whose window gave a reading. *)
Definition all_selected (turns : list (list event * option str))
  : list Reading :=
  flat_map (fun t => opt_list (selected (fst t))) turns.

(** The program with [ONLY_PRINT_ON_CHANGE = False], and its three turns
    on the line that repeats one reply. *)
Definition config_every : Config :=
  {| PORT := PORT config;
     BAUD := BAUD config;
     CMD := CMD config;
     REPEATS_PER_BURST := REPEATS_PER_BURST config;
     LINE_DELAY_MS := LINE_DELAY_MS config;
     CHAR_DELAY_MS := CHAR_DELAY_MS config;
     READ_WINDOW_MS := READ_WINDOW_MS config;
     ONLY_PRINT_ON_CHANGE := false |}.

Definition same_reply_every_turns : list (list event * option str) :=
  Eval vm_compute in turns_of 3 config_every the_port None same_reply_world.

(** * copy_test_to_main.py: the pre-build script

    The script of [test/scripts/copy_test_to_main.py] runs once before a
    build.  It reads two variables of the construction environment, asks
    the file system whether files exist, prints and copies.  The file
    system is not modelled: the world answers [os.path.exists] and decides
    whether a [shutil.copy2] succeeds, both as functions of everything that
    happened before, and the trace records the calls.  Paths are joined as
    [posixpath.join] joins them. *)

Module CopyTest.

Definition startswith_sep (b : string) : bool :=
  match b with
  | String c _ => Ascii.eqb c "/"%char
  | EmptyString => false
  end.

Fixpoint endswith_sep (path : string) : bool :=
  match path with
  | EmptyString => false
  | String c EmptyString => Ascii.eqb c "/"%char
  | String _ rest => endswith_sep rest
  end.

(** One turn of the loop of [posixpath.join]:
    [if b.startswith(sep): path = b]
    [elif not path or path.endswith(sep): path += b]
    [else: path += sep + b]. *)
Definition join_one (path b : string) : string :=
  if startswith_sep b then b
  else if (String.length path =? 0)%nat || endswith_sep path
       then (path ++ b)%string
       else (path ++ "/" ++ b)%string.

Definition os_path_join (a : string) (p : list string) : string :=
  fold_left join_one p a.

(** The dict [test_mapping], in the order of its literal. *)
Definition test_mapping : list (string * string) :=
  [ ("test_00_blink", "test/test_00_blink/test_00_blink.c");
    ("test_01_buttons", "test/test_01_buttons/test_01_buttons.c");
    ("test_02_encoder", "test/test_02_encoder/test_02_encoder.c") ]%string.

(** [d.get(key)]: [None] when [key not in d]. *)
Fixpoint dict_get (key : string) (d : list (string * string)) : option string :=
  match d with
  | [] => None
  | (k, v) :: rest => if String.eqb key k then Some v else dict_get key rest
  end.

Inductive event :=
| Asked (path : string) (answer : bool)
| Printed (line : string)
| Copied (src dst : string)
| Refused (src dst : string).

Record World := mkWorld {
  answers : list event -> string -> bool;
  copies : list event -> string -> string -> bool;
  trace : list event
}.

Inductive outcome :=
| Done
| KeyError (key : string)
| CopyError (src dst : string).

Definition log (e : event) (w : World) : World :=
  mkWorld (answers w) (copies w) (trace w ++ [e]).

Definition os_path_exists (path : string) (w : World) : bool * World :=
  let answer := answers w (trace w) path in
  (answer, log (Asked path answer) w).

Definition print (line : string) (w : World) : World :=
  log (Printed line) w.

(** [shutil.copy2] returns or raises; [false] stands for the exception. *)
Definition shutil_copy2 (src dst : string) (w : World) : bool * World :=
  if copies w (trace w) src dst
  then (true, log (Copied src dst) w)
  else (false, log (Refused src dst) w).

(** The construction environment: [env[key]] raises [KeyError] on a
    variable that is not set. *)
Definition Env := string -> option string.

Definition script (env : Env) (w : World) : outcome * World :=
  match env "PIOENV"%string with
  | None => (KeyError "PIOENV", w)
  | Some env_name =>
    match dict_get env_name test_mapping with
    | None => (Done, w)
    | Some test_file =>
      match env "PROJECT_DIR"%string with
      | None => (KeyError "PROJECT_DIR", w)
      | Some project_dir =>
        let src_path := os_path_join project_dir [test_file] in
        let dst_path := os_path_join project_dir ["main"; "main.c"]%string in
        let (found, w1) := os_path_exists src_path w in
        if found then
          let w2 := print ("Copying " ++ test_file ++ " to main/main.c") w1 in
          let (copied, w3) := shutil_copy2 src_path dst_path w2 in
          if copied then
            let pin_def_src :=
              os_path_join project_dir
                ["test"; "common"; "pin_definitions.h"]%string in
            let pin_def_dst :=
              os_path_join project_dir ["main"; "pin_definitions.h"]%string in
            let (pin_found, w4) := os_path_exists pin_def_src w3 in
            if pin_found then
              let (pin_copied, w5) := shutil_copy2 pin_def_src pin_def_dst w4 in
              if pin_copied then (Done, w5)
              else (CopyError pin_def_src pin_def_dst, w5)
            else (Done, w4)
          else (CopyError src_path dst_path, w3)
        else
          (Done,
           print ("Warning: Test file " ++ test_file ++ " not found!") w1)
      end
    end
  end.

(** The events a run adds to the trace. *)
Definition added (env : Env) (w : World) : list event :=
  skipn (length (trace w)) (trace (snd (script env w))).

(** A build environment and a file system for the examples. *)
Definition blink_env : Env :=
  fun key =>
    if String.eqb key "PIOENV" then Some "test_00_blink"%string
    else if String.eqb key "PROJECT_DIR" then Some "/home/dev/scale"%string
    else None.

Definition release_env : Env :=
  fun key => if String.eqb key "PIOENV" then Some "esp32dev"%string else None.

Definition full_disk : World :=
  mkWorld (fun _ _ => true) (fun _ _ _ => true) [].

Definition empty_disk : World :=
  mkWorld (fun _ _ => false) (fun _ _ _ => true) [].

End CopyTest.

(** Every way of cutting a list at one of its elements. *)
Fixpoint splits {A} (l : list A) : list (list A * A * list A) :=
  match l with
  | [] => []
  | a :: rest =>
    ([], a, rest)
    :: map (fun s => (a :: fst (fst s), snd (fst s), snd s)) (splits rest)
  end.

(** * Properties *)

(** ** Character classes *)

Arguments is_space c : simpl never.
Arguments is_digit c : simpl never.
Arguments is_sign c : simpl never.
Arguments is_dot c : simpl never.
Arguments is_unit c : simpl never.

Lemma in_ranges_all (q : N * N -> bool) rs c :
  forallb q rs = true -> in_ranges rs c = true ->
  exists r, q r = true /\ fst r <= c <= snd r.
Proof.
  unfold in_ranges. induction rs as [|r rs IH]; cbn [forallb existsb].
  - discriminate.
  - rewrite andb_true_iff, orb_true_iff, andb_true_iff, !N.leb_le.
    intros [Q R] [H|H]; eauto.
Qed.

Ltac ranges H :=
  unfold is_unit, is_sign, is_dot in H;
  repeat rewrite ?orb_true_iff, ?andb_true_iff, ?N.leb_le, ?N.eqb_eq in H.

Lemma digit_range c :
  is_digit c = true ->
  (0x30 <= c <= 0x39) \/ (0x660 <= c <= 0x1C59) \/ 0xA620 <= c.
Proof.
  intros H.
  apply (in_ranges_all
           (fun r => ((0x30 <=? fst r) && (snd r <=? 0x39))
                     || ((0x660 <=? fst r) && (snd r <=? 0x1C59))
                     || (0xA620 <=? fst r))) in H; [|reflexivity].
  destruct H as (r & Q & H). ranges Q. lia.
Qed.

Lemma digit_not_1680 c : is_digit c = true -> c <> 0x1680.
Proof.
  intros H.
  apply (in_ranges_all
           (fun r => (snd r <? 0x1680) || (0x1680 <? fst r))) in H;
    [|reflexivity].
  destruct H as (r & Q & H).
  rewrite orb_true_iff, !N.ltb_lt in Q. lia.
Qed.

Lemma space_cases c :
  is_space c = true ->
  c <= 0x20 \/ c = 0x85 \/ c = 0xA0 \/ c = 0x1680 \/ (0x2000 <= c <= 0x3000).
Proof.
  intros H.
  apply (in_ranges_all
           (fun r => (snd r <=? 0x20)
                     || ((fst r =? 0x85) && (snd r =? 0x85))
                     || ((fst r =? 0xA0) && (snd r =? 0xA0))
                     || ((fst r =? 0x1680) && (snd r =? 0x1680))
                     || ((0x2000 <=? fst r) && (snd r <=? 0x3000)))) in H;
    [|reflexivity].
  destruct H as (r & Q & H). ranges Q. lia.
Qed.

Lemma unit_cases c : is_unit c = true -> c = 0x25 \/ (0x41 <= c <= 0x7A).
Proof. intros H. ranges H. lia. Qed.

Lemma sign_cases c : is_sign c = true -> c = 0x2B \/ c = 0x2D.
Proof. intros H. ranges H. lia. Qed.

Lemma dot_case c : is_dot c = true -> c = 0x2E.
Proof. intros H. ranges H. lia. Qed.

Lemma not_true_false (x : bool) : (x = true -> False) -> x = false.
Proof. destruct x; intuition congruence. Qed.

Lemma digit_not_sign c : is_digit c = true -> is_sign c = false.
Proof.
  intros H. apply not_true_false. intros S.
  apply digit_range in H. apply sign_cases in S. lia.
Qed.

Lemma digit_not_dot c : is_digit c = true -> is_dot c = false.
Proof.
  intros H. apply not_true_false. intros S.
  apply digit_range in H. apply dot_case in S. lia.
Qed.

Lemma digit_not_space c : is_digit c = true -> is_space c = false.
Proof.
  intros H. apply not_true_false. intros S.
  pose proof (digit_not_1680 _ H). apply digit_range in H.
  apply space_cases in S. lia.
Qed.

Lemma digit_not_unit c : is_digit c = true -> is_unit c = false.
Proof.
  intros H. apply not_true_false. intros S.
  apply digit_range in H. apply unit_cases in S. lia.
Qed.

Lemma unit_not_space c : is_unit c = true -> is_space c = false.
Proof.
  intros H. apply not_true_false. intros S.
  apply unit_cases in H. apply space_cases in S. lia.
Qed.

Lemma sign_not_digit c : is_sign c = true -> is_digit c = false.
Proof.
  intros H. destruct (is_digit c) eqn:D; [|reflexivity].
  apply digit_not_sign in D. congruence.
Qed.

(** ** The backtracking matcher on [RE_WEIGHT] *)

Lemma RE_WEIGHT_parts : RE_WEIGHT = Cat (Group 1 number) trailer.
Proof. reflexivity. Qed.

Lemma run_length_app p (d rest : str) :
  forallb p d = true -> starts_with p rest = false ->
  run_length p (d ++ rest) = length d.
Proof.
  induction d as [|c d IH]; cbn [forallb app run_length length].
  - intros _ H. destruct rest as [|c r]; [reflexivity|].
    cbn in *. now rewrite H.
  - rewrite andb_true_iff. intros [Hc Hd] H. rewrite Hc. f_equal. auto.
Qed.

Lemma run_length_le p (s : str) : (run_length p s <= length s)%nat.
Proof.
  induction s as [|c s IH]; cbn; [lia|]. destruct (p c); lia.
Qed.

Lemma run_length_0 p (s : str) :
  starts_with p s = false -> run_length p s = O.
Proof. destruct s as [|c s]; cbn; [reflexivity|]. now intros ->. Qed.

Lemma skipn_exact (x rest : str) : skipn (length x) (x ++ rest) = rest.
Proof. induction x; cbn; auto. Qed.

Lemma firstn_exact (x rest : str) :
  firstn (length (x ++ rest) - length rest) (x ++ rest) = x.
Proof.
  rewrite length_app.
  replace (length x + length rest - length rest)%nat with (length x) by lia.
  induction x; cbn; [reflexivity|]. now f_equal.
Qed.

Lemma length_skipn_run p (s : str) :
  (length s - length (skipn (run_length p s) s))%nat = run_length p s.
Proof.
  rewrite length_skipn. pose proof (run_length_le p s). lia.
Qed.

Lemma give_back_first {A} min s (k : str -> option A) n a :
  (min <= n)%nat -> k (skipn n s) = Some a -> give_back min s k n = Some a.
Proof.
  intros Hn Hk. destruct n; cbn [give_back].
  - replace (Nat.ltb 0 min) with false by (symmetry; apply Nat.ltb_ge; lia).
    now rewrite Hk.
  - replace (Nat.ltb (S n) min) with false
      by (symmetry; apply Nat.ltb_ge; lia).
    now rewrite Hk.
Qed.

Lemma give_back_short {A} min s (k : str -> option A) n :
  (n < min)%nat -> give_back min s k n = None.
Proof.
  intros Hn. destruct n; cbn [give_back].
  - replace (Nat.ltb 0 min) with true by (symmetry; apply Nat.ltb_lt; lia).
    reflexivity.
  - replace (Nat.ltb (S n) min) with true
      by (symmetry; apply Nat.ltb_lt; lia).
    reflexivity.
Qed.

Lemma is_digits_cons d :
  is_digits d = true ->
  exists c d', d = c :: d' /\ is_digit c = true /\ forallb is_digit d = true.
Proof.
  destruct d as [|c d']; [discriminate|]. intros H. exists c, d'.
  repeat split; auto. cbn in H. now apply andb_true_iff in H.
Qed.

Section Equations.
Context {A : Type}.
Variables (s : str) (g : groups) (k : str -> groups -> option A).

Lemma bt_class p c t :
  bt (Class p) (c :: t) g k = if p c then k t g else None.
Proof. reflexivity. Qed.

Lemma bt_class_nil p : bt (Class p) [] g k = None.
Proof. reflexivity. Qed.

Lemma bt_cat r1 r2 :
  bt (Cat r1 r2) s g k = bt r1 s g (fun s1 g1 => bt r2 s1 g1 k).
Proof. reflexivity. Qed.

Lemma bt_opt r :
  bt (Opt r) s g k =
  match bt r s g k with
  | Some a => Some a
  | None => k s g
  end.
Proof. reflexivity. Qed.

Lemma bt_repeat p min :
  bt (Repeat p min) s g k =
  give_back min s (fun rest => k rest g) (run_length p s).
Proof. reflexivity. Qed.

Lemma bt_group i r :
  bt (Group i r) s g k =
  bt r s g (fun s1 g1 => k s1 ((i, firstn (length s - length s1) s) :: g1)).
Proof. reflexivity. Qed.
End Equations.

Section Number.
Context {A : Type}.
Variables (g : groups) (k : str -> groups -> option A) (a : A).

Lemma bt_digits (d rest : str) :
  is_digits d = true -> starts_with is_digit rest = false ->
  k rest g = Some a ->
  bt (Repeat is_digit 1) (d ++ rest) g k = Some a.
Proof.
  intros Hd Hr Hk. apply is_digits_cons in Hd as (c & d' & -> & Hc & Hall).
  cbn [bt]. rewrite (run_length_app is_digit _ _ Hall Hr).
  apply give_back_first; [cbn; lia|]. now rewrite skipn_exact.
Qed.

Lemma bt_fraction (f tail : str) :
  is_fraction f = true -> starts_with is_digit tail = false ->
  (f = [] -> starts_fraction tail = false) ->
  k tail g = Some a ->
  bt (Opt (Cat (Class is_dot) (Repeat is_digit 1))) (f ++ tail) g k = Some a.
Proof.
  intros Hf Ht Hnf Hk. destruct f as [|c d].
  - specialize (Hnf eq_refl). cbn [app bt].
    destruct tail as [|c t]; [now rewrite Hk|].
    cbn in Hnf. destruct (is_dot c); [|now rewrite Hk].
    cbn in Hnf. rewrite (run_length_0 _ _ Hnf).
    rewrite give_back_short by lia. now rewrite Hk.
  - cbn in Hf. apply andb_true_iff in Hf as [Hc Hd].
    cbn [app]. rewrite bt_opt, bt_cat, bt_class, Hc.
    now rewrite (bt_digits d tail Hd Ht Hk).
Qed.

Lemma bt_number (sg d f tail : str) :
  is_sign_part sg = true -> is_digits d = true -> is_fraction f = true ->
  starts_with is_digit tail = false ->
  (f = [] -> starts_fraction tail = false) ->
  k tail g = Some a ->
  bt number (sg ++ d ++ f ++ tail) g k = Some a.
Proof.
  intros Hs Hd Hf Ht Hnf Hk.
  assert (Hrest : bt (Cat (Repeat is_digit 1)
                          (Opt (Cat (Class is_dot) (Repeat is_digit 1))))
                     (d ++ f ++ tail) g k = Some a).
  { pose proof (is_digits_cons _ Hd) as (c & d' & -> & Hc & Hall).
    cbn [bt]. rewrite (run_length_app is_digit _ _ Hall).
    - apply give_back_first; [cbn; lia|]. rewrite skipn_exact.
      now apply bt_fraction.
    - destruct f as [|c' f']; [exact Ht|].
      cbn in Hf. apply andb_true_iff in Hf as [Hdot _]. cbn.
      destruct (is_digit c') eqn:E; [|reflexivity].
      apply digit_not_dot in E. congruence. }
  unfold number. destruct sg as [|c [|c' sg']]; try discriminate.
  - pose proof (is_digits_cons _ Hd) as (c & d' & E & Hc & _).
    cbn [app]. rewrite E in *. cbn [app bt] in *.
    rewrite (digit_not_sign _ Hc). exact Hrest.
  - cbn in Hs. cbn [app bt] in *. rewrite Hs. now rewrite Hrest.
Qed.
End Number.

Lemma bt_trailer tail g :
  bt trailer tail g (fun _ g' => Some g') = Some (after_number tail g).
Proof.
  unfold trailer, after_number. rewrite bt_cat, bt_repeat.
  apply give_back_first; [lia|].
  set (t1 := skipn (run_length is_space tail) tail).
  rewrite bt_opt, bt_group, bt_repeat.
  destruct (run_length is_unit t1) as [|n] eqn:E.
  - now rewrite give_back_short by lia.
  - erewrite give_back_first; [reflexivity|lia|].
    rewrite <- E, length_skipn_run. reflexivity.
Qed.

Lemma match_here_number sg d f tail :
  is_sign_part sg = true -> is_digits d = true -> is_fraction f = true ->
  starts_with is_digit tail = false ->
  (f = [] -> starts_fraction tail = false) ->
  match_here RE_WEIGHT (sg ++ d ++ f ++ tail)
  = Some (after_number tail [(1%nat, sg ++ d ++ f)]).
Proof.
  intros Hs Hd Hf Ht Hnf. unfold match_here.
  rewrite RE_WEIGHT_parts, bt_cat, bt_group.
  apply bt_number; auto. rewrite bt_trailer. do 3 f_equal.
  replace (sg ++ d ++ f ++ tail) with ((sg ++ d ++ f) ++ tail)
    by now rewrite <- !app_assoc.
  now rewrite firstn_exact.
Qed.

Lemma bt_number_none {A} s g (k : str -> groups -> option A) :
  starts_number s = false -> bt number s g k = None.
Proof.
  unfold starts_number, number. rewrite orb_false_iff. intros [Hd Hs].
  assert (Hrest : forall t, starts_with is_digit t = false ->
            bt (Cat (Repeat is_digit 1)
                    (Opt (Cat (Class is_dot) (Repeat is_digit 1)))) t g k
            = None).
  { intros t Ht. rewrite bt_cat, bt_repeat, (run_length_0 _ _ Ht).
    apply give_back_short. lia. }
  rewrite bt_cat, bt_opt. destruct s as [|c t].
  - rewrite bt_class_nil. now apply Hrest.
  - rewrite bt_class. destruct (is_sign c); cbn [andb] in Hs.
    + rewrite (Hrest t Hs). now apply Hrest.
    + now apply Hrest.
Qed.

Lemma match_here_none s :
  starts_number s = false -> match_here RE_WEIGHT s = None.
Proof.
  intros H. unfold match_here. rewrite RE_WEIGHT_parts, bt_cat, bt_group.
  now apply bt_number_none.
Qed.

(** Whatever [bt] returns was returned by the rest of the pattern. *)
Lemma bt_result {A} r : forall s g (k : str -> groups -> option A) a,
  bt r s g k = Some a -> exists s1 g1, k s1 g1 = Some a.
Proof.
  induction r as [p|p min|r1 IH1 r2 IH2|r1 IH1|i r1 IH1]; intros s g k a H.
  - destruct s as [|c t]; [discriminate|]. rewrite bt_class in H.
    destruct (p c); [eauto|discriminate].
  - rewrite bt_repeat in H. revert H.
    induction (run_length p s) as [|n IHn]; cbn [give_back];
      destruct (Nat.ltb _ min); try discriminate;
      destruct (k (skipn _ s) g) eqn:E; intros H;
      try discriminate; try (injection H as <-; eauto); auto.
  - rewrite bt_cat in H. apply IH1 in H as (s1 & g1 & H). eauto.
  - rewrite bt_opt in H. destruct (bt r1 s g k) eqn:E.
    + injection H as <-. eauto.
    + eauto.
  - rewrite bt_group in H. apply IH1 in H as (s1 & g1 & H). eauto.
Qed.

Lemma group_after_number tail g : group (after_number tail g) 1 = group g 1.
Proof.
  unfold after_number.
  destruct (run_length is_unit _); reflexivity.
Qed.

(** Group 1 takes part in every match. *)
Lemma match_here_group1 s g :
  match_here RE_WEIGHT s = Some g -> exists w, group g 1 = Some w.
Proof.
  unfold match_here. rewrite RE_WEIGHT_parts, bt_cat, bt_group.
  intros H. apply bt_result in H as (s1 & g1 & H).
  rewrite bt_trailer in H. injection H as <-.
  rewrite group_after_number. cbn. eauto.
Qed.

Lemma search_group1 s g :
  search RE_WEIGHT s = Some g -> exists w, group g 1 = Some w.
Proof.
  induction s as [|c t IH]; cbn [search];
    destruct (match_here RE_WEIGHT _) eqn:E; intros H;
    try discriminate; try (injection H as <-; eauto using match_here_group1).
  auto.
Qed.

(** The search passes over a prefix in which no match can start. *)
Lemma search_prefix pre x :
  existsb is_digit pre = false ->
  (starts_with is_sign x = false -> ends_with is_sign pre = false) ->
  starts_with is_sign x || starts_with is_digit x = true ->
  search RE_WEIGHT (pre ++ x) = search RE_WEIGHT x.
Proof.
  intros Hpre Hend Hx. induction pre as [|c pre IH]; [reflexivity|].
  cbn [existsb] in Hpre. apply orb_false_iff in Hpre as [Hc Hpre].
  cbn [app search]. rewrite match_here_none.
  - apply IH; auto. intros Hs. specialize (Hend Hs).
    destruct pre; [reflexivity|exact Hend].
  - unfold starts_number. cbn [starts_with]. rewrite Hc. cbn [orb].
    destruct pre as [|c' pre'].
    + cbn [app]. destruct (starts_with is_sign x) eqn:Sx.
      * destruct x as [|cx x']; [discriminate|]. cbn in Sx |- *.
        rewrite (sign_not_digit _ Sx). apply andb_false_r.
      * cbn in Hend. now rewrite (Hend eq_refl).
    + cbn [app starts_with]. cbn [existsb] in Hpre.
      apply orb_false_iff in Hpre as [-> _]. apply andb_false_r.
Qed.

Lemma search_here r s g : match_here r s = Some g -> search r s = Some g.
Proof. intros H. destruct s; cbn [search]; now rewrite H. Qed.

Lemma search_no_digit s :
  existsb is_digit s = false -> search RE_WEIGHT s = None.
Proof.
  induction s as [|c t IH]; intros H.
  - cbn [search]. now rewrite match_here_none.
  - cbn [existsb] in H. apply orb_false_iff in H as [Hc Ht].
    cbn [search]. rewrite match_here_none; auto.
    unfold starts_number. cbn [starts_with]. rewrite Hc. cbn [orb].
    destruct t as [|c' t']; cbn [starts_with]; [apply andb_false_r|].
    cbn [existsb] in Ht. apply orb_false_iff in Ht as [-> _].
    apply andb_false_r.
Qed.

Lemma space_not_dot c : is_space c = true -> is_dot c = false.
Proof.
  intros H. apply not_true_false. intros S.
  apply space_cases in H. apply dot_case in S. lia.
Qed.

Lemma unit_not_dot c : is_unit c = true -> is_dot c = false.
Proof.
  intros H. apply not_true_false. intros S.
  apply unit_cases in H. apply dot_case in S. lia.
Qed.

Lemma space_not_digit c : is_space c = true -> is_digit c = false.
Proof.
  intros H. destruct (is_digit c) eqn:D; [|reflexivity].
  apply digit_not_space in D. congruence.
Qed.

Lemma unit_not_digit c : is_unit c = true -> is_digit c = false.
Proof.
  intros H. destruct (is_digit c) eqn:D; [|reflexivity].
  apply digit_not_unit in D. congruence.
Qed.

(** The head of [sp ++ un], if there is one, is a space or a unit
    character. *)
Lemma head_space_or_unit (q : N -> bool) sp un :
  forallb is_space sp = true -> forallb is_unit un = true ->
  (forall c, is_space c = true -> q c = false) ->
  (forall c, is_unit c = true -> q c = false) ->
  starts_with q (sp ++ un) = false.
Proof.
  intros Hsp Hun Qs Qu. destruct sp as [|c sp]; cbn [app starts_with].
  - destruct un as [|c un]; [reflexivity|]. cbn in Hun |- *.
    apply andb_true_iff in Hun as [Hc _]. auto.
  - cbn in Hsp. apply andb_true_iff in Hsp as [Hc _]. auto.
Qed.

Lemma after_number_exact sp un g :
  forallb is_space sp = true -> forallb is_unit un = true ->
  after_number (sp ++ un) g
  = match un with
    | [] => g
    | _ => (2%nat, un) :: g
    end.
Proof.
  intros Hsp Hun. unfold after_number.
  rewrite (run_length_app is_space sp un Hsp).
  - rewrite skipn_exact.
    rewrite <- (app_nil_r un) at 1 2.
    rewrite (run_length_app is_unit un [] Hun eq_refl), app_nil_r.
    destruct un as [|c un']; [reflexivity|].
    cbn [length firstn]. now rewrite firstn_all.
  - destruct un as [|c un']; [reflexivity|]. cbn in Hun |- *.
    apply andb_true_iff in Hun as [Hc _]. now apply unit_not_space.
Qed.

(** On a line that is a number, white space and a unit and nothing else,
    the search stops at the first position and the groups are the number
    and the unit. *)
Lemma parse_raw_valid sg d f sp un :
  is_sign_part sg = true -> is_digits d = true -> is_fraction f = true ->
  forallb is_space sp = true -> forallb is_unit un = true ->
  parse_raw (sg ++ d ++ f ++ sp ++ un)
  = Some (Some (sg ++ d ++ f), un, sg ++ d ++ f ++ sp ++ un).
Proof.
  intros Hs Hd Hf Hsp Hun. unfold parse_raw.
  rewrite (search_here _ _ (after_number (sp ++ un) [(1%nat, sg ++ d ++ f)])).
  - rewrite group_after_number, after_number_exact by assumption.
    cbn [group Nat.eqb]. destruct un; reflexivity.
  - apply match_here_number; auto.
    + apply head_space_or_unit; auto using space_not_digit, unit_not_digit.
    + intros _. unfold starts_fraction.
      pose proof (head_space_or_unit is_dot sp un Hsp Hun
                    space_not_dot unit_not_dot) as H.
      destruct (sp ++ un) as [|c t]; [reflexivity|]. cbn in H.
      now rewrite H.
Qed.

(** C3.  A line that, decoded and stripped, is a number (optional sign,
    digits, optional fraction), optional white space and an optional unit
    token yields a Reading with exactly that number as its numeric text,
    exactly that unit token as its unit (the empty text when there is
    none), and the decoded, stripped line itself as [raw]. *)
Theorem parse_line_valid (line : bytes) (sg d f sp un : str) :
  is_sign_part sg = true -> is_digits d = true -> is_fraction f = true ->
  forallb is_space sp = true -> forallb is_unit un = true ->
  strip (decode_ignore line) = sg ++ d ++ f ++ sp ++ un ->
  parse_line line
  = Some (Some (sg ++ d ++ f), un, strip (decode_ignore line)).
Proof.
  intros Hs Hd Hf Hsp Hun E. unfold parse_line. rewrite E.
  transitivity (parse_raw (sg ++ d ++ f ++ sp ++ un));
    [|now apply parse_raw_valid].
  apply is_digits_cons in Hd as (c & d' & -> & _).
  destruct sg as [|c0 sg']; reflexivity.
Qed.

Lemma parse_line_valid_witness :
  parse_line (b "+012.50 kg" ++ [x0d; x0a])
  = Some (Some (u "+012.50"), u "kg", u "+012.50 kg").
Proof.
  exact (parse_line_valid (b "+012.50 kg" ++ [x0d; x0a])
           (u "+") (u "012") (u ".50") (u " ") (u "kg")
           eq_refl eq_refl eq_refl eq_refl eq_refl eq_refl).
Defined.

(** ** The first numeric substring *)

Lemma split_run p (s : str) :
  exists d rest,
    s = d ++ rest /\ forallb p d = true /\ starts_with p rest = false.
Proof.
  induction s as [|c s (d & rest & E & Hd & Hr)].
  - exists [], []. auto.
  - destruct (p c) eqn:Hc.
    + exists (c :: d), rest. cbn. rewrite Hc, Hd, <- E. auto.
    + exists [], (c :: s). cbn. auto.
Qed.

Lemma split_first_digit (s : str) :
  existsb is_digit s = true ->
  exists pre c t,
    s = pre ++ c :: t /\ existsb is_digit pre = false /\ is_digit c = true.
Proof.
  induction s as [|c s IH]; [discriminate|]. cbn [existsb].
  destruct (is_digit c) eqn:Hc.
  - intros _. exists [], c, s. auto.
  - cbn [orb]. intros H. destruct (IH H) as (pre & c' & t & E & Hp & Hc').
    exists (c :: pre), c', t. cbn. rewrite Hc, Hp, E. auto.
Qed.

Lemma split_last p (s : str) :
  ends_with p s = true -> exists s' c, s = s' ++ [c] /\ p c = true.
Proof.
  induction s as [|c s IH]; [discriminate|]. destruct s as [|c' s'].
  - cbn. intros H. exists [], c. auto.
  - intros H. destruct (IH H) as (s0 & c0 & E & Hc0).
    exists (c :: s0), c0. cbn [app]. rewrite <- E. auto.
Qed.

Lemma first_number_exists (raw : str) :
  existsb is_digit raw = true -> exists x, first_number raw x.
Proof.
  intros H. destruct (split_first_digit raw H) as (pre & c & t & -> & Hp & Hc).
  destruct (split_run is_digit t) as (d' & rest & -> & Hd' & Hrest).
  assert (Hd : is_digits (c :: d') = true) by (cbn; now rewrite Hc, Hd').
  assert (exists f tail, rest = f ++ tail /\ is_fraction f = true /\
            starts_with is_digit tail = false /\
            (f = [] -> starts_fraction tail = false))
    as (f & tail & -> & Hf & Htail & Hnf).
  { destruct (starts_fraction rest) eqn:Fr.
    - destruct rest as [|dot r]; [discriminate|]. cbn in Fr.
      apply andb_true_iff in Fr as [Hdot Hr].
      destruct r as [|c2 r]; [discriminate|]. cbn in Hr.
      destruct (split_run is_digit r) as (d2 & tail & -> & Hd2 & Htail).
      exists (dot :: c2 :: d2), tail. cbn. rewrite Hdot, Hr, Hd2.
      repeat split; auto. discriminate.
    - exists [], rest. auto. }
  destruct (ends_with is_sign pre) eqn:Hend.
  - destruct (split_last _ _ Hend) as (pre' & sc & -> & Hsc).
    rewrite existsb_app in Hp. apply orb_false_iff in Hp as [Hp' _].
    exists ([sc] ++ (c :: d') ++ f), pre', [sc], (c :: d'), f, tail.
    rewrite <- !app_assoc. cbn [app]. repeat split; auto. discriminate.
  - exists ([] ++ (c :: d') ++ f), pre, [], (c :: d'), f, tail.
    cbn [app]. repeat split; auto.
Qed.

Lemma parse_raw_first_number (raw x : str) :
  first_number raw x ->
  exists un, parse_raw raw = Some (Some x, un, raw).
Proof.
  intros (pre & sg & d & f & tail & -> & -> & Hp & Hs & Hd & Hf & Hend
          & Htail & Hnf).
  unfold parse_raw. rewrite search_prefix; auto.
  - rewrite (search_here _ _ _ (match_here_number sg d f tail Hs Hd Hf Htail Hnf)).
    rewrite group_after_number. cbn [group Nat.eqb]. eauto.
  - intros Hx. apply Hend. destruct sg as [|c sg']; [reflexivity|].
    destruct sg'; [|discriminate]. cbn in Hs, Hx. congruence.
  - apply is_digits_cons in Hd as (c & d' & -> & Hc & _).
    destruct sg as [|c0 sg']; cbn [app starts_with].
    + rewrite Hc. apply orb_true_r.
    + destruct sg'; [|discriminate]. cbn in Hs. now rewrite Hs.
Qed.

Lemma parse_raw_first_number_digit (raw : str) :
  existsb is_digit raw = true -> exists r, parse_raw raw = Some r.
Proof.
  intros H. destruct (first_number_exists raw H) as (x & Hx).
  destruct (parse_raw_first_number raw x Hx) as (un & E). eauto.
Qed.

Lemma first_number_unique (raw x y : str) :
  first_number raw x -> first_number raw y -> x = y.
Proof.
  intros Hx Hy. apply parse_raw_first_number in Hx as (ux & Ex).
  apply parse_raw_first_number in Hy as (uy & Ey). congruence.
Qed.

(** C4.  The pattern is searched for, not matched against the whole line:
    every line with a digit in it yields a Reading, whose numeric text is
    the first numeric substring of the line and whose [raw] is the line. *)
Theorem parse_raw_any_digit (raw : str) :
  existsb is_digit raw = true ->
  exists w un,
    parse_raw raw = Some (Some w, un, raw) /\ first_number raw w.
Proof.
  intros H. destruct (first_number_exists raw H) as (x & Hx).
  destruct (parse_raw_first_number raw x Hx) as (un & E). eauto.
Qed.

Lemma parse_raw_any_digit_witness :
  exists w un,
    parse_raw (u "ERROR 404") = Some (Some w, un, u "ERROR 404")
    /\ first_number (u "ERROR 404") w.
Proof. exact (parse_raw_any_digit (u "ERROR 404") eq_refl). Defined.

(** The two lines named by C4 are not numbers as a whole (no match starts
    at their first character), and still give the Readings [404] and [3]. *)
Example parse_ERROR_404 :
  match_here RE_WEIGHT (u "ERROR 404") = None
  /\ parse_line (b "ERROR 404") = Some (Some (u "404"), [], u "ERROR 404").
Proof. split; reflexivity. Qed.

Example parse_NA_3 :
  match_here RE_WEIGHT (u "N/A 3") = None
  /\ parse_line (b "N/A 3") = Some (Some (u "3"), [], u "N/A 3").
Proof. split; reflexivity. Qed.

(** ** Calls that Ctrl+C does not interrupt *)

Lemma runs_ret {A} (a : A) w (Q : A -> World -> list event -> Prop) :
  sigint w = None -> Q a w [] -> runs (ret a) w Q.
Proof.
  intros Hs HQ. exists a, w, []. rewrite app_nil_r. auto.
Qed.

Lemma runs_bind {A B} (m : M A) (f : A -> M B) w Q1
      (Q : B -> World -> list event -> Prop) :
  runs m w Q1 ->
  (forall a w1 evs1, sigint w1 = None -> Q1 a w1 evs1 ->
     runs (f a) w1 (fun x w2 evs2 => Q x w2 (evs1 ++ evs2))) ->
  runs (bind m f) w Q.
Proof.
  intros (a & w1 & evs1 & Em & Hs1 & Ht1 & HQ1) Hf.
  destruct (Hf a w1 evs1 Hs1 HQ1) as (x & w2 & evs2 & Ef & Hs2 & Ht2 & HQ).
  exists x, w2, (evs1 ++ evs2). unfold bind. rewrite Em, Ef.
  rewrite Ht2, Ht1, app_assoc. auto.
Qed.

Lemma runs_weaken {A} (m : M A) w (Q Q' : A -> World -> list event -> Prop) :
  runs m w Q -> (forall a w' evs, Q a w' evs -> Q' a w' evs) -> runs m w Q'.
Proof.
  intros (a & w' & evs & E & Hs & Ht & HQ) H. exists a, w', evs. auto.
Qed.

(** A run that returns is the only run there is. *)
Lemma runs_inv {A} (m : M A) w Q a w' evs :
  runs m w Q -> m w = (Ok a, w') -> trace w' = trace w ++ evs ->
  sigint w' = None /\ Q a w' evs.
Proof.
  intros (a0 & w0 & evs0 & E & Hs & Ht & HQ) Em Hevs.
  rewrite E in Em. injection Em as -> ->.
  rewrite Ht in Hevs. apply app_inv_head in Hevs. subst. auto.
Qed.

Lemma effect_quiet {A} (f : World -> A * World) w :
  sigint w = None -> effect f w = (Ok (fst (f w)), snd (f w)).
Proof.
  intros Hs. unfold effect, bind, deliver_signal. rewrite Hs.
  now destruct (f w).
Qed.

Lemma runs_time_time w :
  sigint w = None ->
  runs time_time w (fun now w' evs => now = clock w /\ w' = w /\ evs = []).
Proof.
  intros Hs. exists (clock w), w, []. unfold time_time.
  rewrite effect_quiet, app_nil_r by assumption. cbn. repeat split; auto.
Qed.

Lemma runs_datetime_now w :
  sigint w = None ->
  runs datetime_now w (fun ts w' evs => ts = clock w /\ w' = w /\ evs = []).
Proof. exact (runs_time_time w). Qed.

Lemma runs_time_sleep d w :
  sigint w = None ->
  runs (time_sleep d) w
       (fun _ w' evs =>
          evs = [Slept d] /\ clock w + d <= clock w' /\ rx w' = rx w).
Proof.
  intros Hs. unfold runs, time_sleep. rewrite effect_quiet by assumption.
  cbn -[N.add N.le]. do 3 eexists. repeat split; auto.
  unfold log. cbn [clock]. lia.
Qed.

Lemma runs_ser_write ser data w :
  sigint w = None ->
  runs (ser_write ser data) w
       (fun _ w' evs =>
          evs = [Wrote data] /\ clock w' = clock w /\ rx w' = rx w).
Proof.
  intros Hs. unfold runs, ser_write. rewrite effect_quiet by assumption.
  cbn. do 3 eexists. repeat split; auto.
Qed.

Lemma runs_print t w :
  sigint w = None ->
  runs (print t) w
       (fun _ w' evs =>
          evs = [Printed t] /\ clock w' = clock w /\ rx w' = rx w).
Proof.
  intros Hs. unfold runs, print. rewrite effect_quiet by assumption.
  cbn. do 3 eexists. repeat split; auto.
Qed.

Lemma runs_ser_readline ser w :
  sigint w = None ->
  runs (ser_readline ser) w
       (fun line w' evs =>
          evs = [Readline line] /\
          match rx w with
          | (dt, l) :: rest =>
            line = l /\ rx w' = rest /\ clock w' = clock w + dt
          | [] => line = [] /\ rx w' = [] /\ clock w' = clock w + timeout ser
          end).
Proof.
  intros Hs. unfold runs, ser_readline. rewrite effect_quiet by assumption.
  destruct (rx w) as [|[dt l] rest] eqn:E; cbn; do 3 eexists;
    repeat split; auto.
Qed.

(** ** The burst *)

Lemma runs_send_bytes ser c cmd : forall w,
  sigint w = None ->
  runs (for_each cmd (fun x => ser_write ser [x] ;; time_sleep c)) w
       (fun _ w' evs =>
          evs = flat_map (fun x => [Wrote [x]; Slept c]) cmd /\
          rx w' = rx w /\ clock w + N.of_nat (length cmd) * c <= clock w').
Proof.
  induction cmd as [|x cmd IH]; intros w Hs.
  - apply runs_ret; auto. cbn. repeat split; auto. lia.
  - cbn [for_each flat_map].
    apply runs_bind with
      (Q1 := fun _ w2 evs =>
               evs = [Wrote [x]; Slept c] /\ rx w2 = rx w /\
               clock w + c <= clock w2).
    { eapply runs_bind; [now apply runs_ser_write|].
      intros _ w1 evs1 Hs1 (-> & Hc1 & Hr1).
      eapply runs_weaken; [now apply runs_time_sleep|].
      intros _ w2 evs2 (-> & Hc2 & Hr2).
      repeat split; [congruence|lia]. }
    intros _ w2 evs2 Hs2 (-> & Hr2 & Hc2).
    eapply runs_weaken; [now apply IH|].
    intros _ w3 evs3 (-> & Hr3 & Hc3). cbn [app length] in *.
    repeat split; [congruence|]. lia.
Qed.

Lemma runs_send_cmd ser cmd c l w :
  sigint w = None ->
  runs (send_cmd ser cmd c l) w
       (fun _ w' evs =>
          evs = cmd_events cmd c l /\ rx w' = rx w /\
          clock w + (N.of_nat (length cmd) * c + l) <= clock w').
Proof.
  intros Hs. unfold send_cmd, cmd_events.
  eapply runs_bind; [now apply runs_send_bytes|].
  intros _ w1 evs1 Hs1 (-> & Hr1 & Hc1).
  eapply runs_weaken; [now apply runs_time_sleep|].
  intros _ w2 evs2 (-> & Hc2 & Hr2). repeat split; [congruence|lia].
Qed.


Lemma runs_for_range ser cmd c l n : forall w,
  sigint w = None ->
  runs (for_range n (send_cmd ser cmd c l)) w
       (fun _ w' evs =>
          evs = concat (repeat (cmd_events cmd c l) n) /\ rx w' = rx w /\
          clock w + N.of_nat n * (N.of_nat (length cmd) * c + l) <= clock w').
Proof.
  induction n as [|n IH]; intros w Hs.
  - apply runs_ret; auto. cbn. repeat split; auto. lia.
  - cbn [for_range repeat concat].
    eapply runs_bind; [now apply runs_send_cmd|].
    intros _ w1 evs1 Hs1 (-> & Hr1 & Hc1).
    eapply runs_weaken; [now apply IH|].
    intros _ w2 evs2 (-> & Hr2 & Hc2). repeat split; [congruence|lia].
Qed.

Lemma writes_app e1 e2 : writes (e1 ++ e2) = writes e1 ++ writes e2.
Proof. apply flat_map_app. Qed.

Lemma sleeps_app e1 e2 : sleeps (e1 ++ e2) = sleeps e1 ++ sleeps e2.
Proof. apply flat_map_app. Qed.

Lemma readlines_app e1 e2 : readlines (e1 ++ e2) = readlines e1 ++ readlines e2.
Proof. apply flat_map_app. Qed.

Lemma prints_app e1 e2 : prints (e1 ++ e2) = prints e1 ++ prints e2.
Proof. apply flat_map_app. Qed.

Lemma total_app d1 d2 : total (d1 ++ d2) = total d1 + total d2.
Proof.
  unfold total. induction d1 as [|d d1 IH]; cbn [app fold_right]; lia.
Qed.

Lemma cmd_events_writes cmd c l :
  writes (cmd_events cmd c l) = map (fun x => [x]) cmd.
Proof.
  unfold cmd_events. rewrite writes_app, app_nil_r.
  induction cmd as [|x cmd IH]; [reflexivity|]. cbn. f_equal. exact IH.
Qed.

Lemma cmd_events_sleeps cmd c l :
  sleeps (cmd_events cmd c l) = repeat c (length cmd) ++ [l].
Proof.
  unfold cmd_events. rewrite sleeps_app. f_equal.
  induction cmd as [|x cmd IH]; [reflexivity|]. cbn. f_equal. exact IH.
Qed.

Lemma cmd_events_quiet cmd c l :
  readlines (cmd_events cmd c l) = [] /\ prints (cmd_events cmd c l) = [].
Proof.
  unfold cmd_events. rewrite readlines_app, prints_app, !app_nil_r.
  induction cmd as [|x cmd [IH1 IH2]]; cbn; auto.
Qed.

Lemma total_repeat c n : total (repeat c n) = N.of_nat n * c.
Proof.
  unfold total. induction n as [|n IH]; cbn [repeat fold_right]; lia.
Qed.

Lemma burst_events_writes cmd c l n :
  writes (concat (repeat (cmd_events cmd c l) n))
  = concat (repeat (map (fun x => [x]) cmd) n).
Proof.
  induction n as [|n IH]; [reflexivity|].
  cbn [repeat concat]. now rewrite writes_app, cmd_events_writes, IH.
Qed.

Lemma burst_events_sleeps cmd c l n :
  sleeps (concat (repeat (cmd_events cmd c l) n))
  = concat (repeat (repeat c (length cmd) ++ [l]) n).
Proof.
  induction n as [|n IH]; [reflexivity|].
  cbn [repeat concat]. now rewrite sleeps_app, cmd_events_sleeps, IH.
Qed.

Lemma burst_events_quiet cmd c l n :
  readlines (concat (repeat (cmd_events cmd c l) n)) = []
  /\ prints (concat (repeat (cmd_events cmd c l) n)) = [].
Proof.
  induction n as [|n [IH1 IH2]]; [auto|].
  cbn [repeat concat]. rewrite readlines_app, prints_app, IH1, IH2.
  destruct (cmd_events_quiet cmd c l) as [-> ->]. auto.
Qed.

Lemma burst_sleep_total (cmd : bytes) c l n :
  total (concat (repeat (repeat c (length cmd) ++ [l]) n))
  = N.of_nat n * (N.of_nat (length cmd) * c + l).
Proof.
  induction n as [|n IH]; [reflexivity|].
  cbn [repeat concat]. rewrite !total_app, total_repeat, IH.
  unfold total. cbn [fold_right]. lia.
Qed.

(** C2.  The command is the ten characters of the literal text
    [@P<CR><LF>], not [@], [P], carriage return, line feed; a burst writes
    each of these bytes in a [write] of its own, in order, thirteen times
    over. *)
Theorem burst_writes_literal (ser : Serial) (w : World) :
  sigint w = None ->
  CMD config = ["@"; "P"; "<"; "C"; "R"; ">"; "<"; "L"; "F"; ">"]%byte /\
  CMD config <> ["@"%byte; "P"%byte; x0d; x0a] /\
  exists w' evs,
    burst config ser w = (Ok tt, w') /\ trace w' = trace w ++ evs /\
    writes evs
    = concat (repeat (map (fun c => [c])
                          ["@"; "P"; "<"; "C"; "R"; ">"; "<"; "L"; "F"; ">"]%byte)
                     13).
Proof.
  intros Hs. split; [reflexivity|]. split; [discriminate|].
  destruct (runs_for_range ser (CMD config) (CHAR_DELAY_MS config * 1000)
              (LINE_DELAY_MS config * 1000) (REPEATS_PER_BURST config) w Hs)
    as ([] & w' & evs & E & _ & Ht & -> & _).
  eexists w', _. repeat split; [exact E|exact Ht|].
  apply burst_events_writes.
Qed.

Lemma burst_writes_literal_witness :
  exists w' evs,
    burst config (mkSerial [] 9600 20000) (mkWorld 0 [] [] None [])
    = (Ok tt, w') /\
    trace w' = evs /\
    writes evs
    = concat (repeat (map (fun c => [c])
                          ["@"; "P"; "<"; "C"; "R"; ">"; "<"; "L"; "F"; ">"]%byte)
                     13).
Proof.
  exact (proj2 (proj2 (burst_writes_literal (mkSerial [] 9600 20000)
                         (mkWorld 0 [] [] None []) eq_refl))).
Defined.

(** C9.  A burst of [n] repeats of a command of [length cmd] bytes, with
    the pause [c] after every byte and the pause [l] after every repeat,
    asks for pauses that add up to [n * (length cmd * c + l)], and the
    clock has moved on by at least that much when the burst is over. *)
Theorem burst_delay (ser : Serial) (cmd : bytes) (c l : N) (n : nat)
        (w : World) :
  sigint w = None ->
  exists w' evs,
    for_range n (send_cmd ser cmd c l) w = (Ok tt, w') /\
    trace w' = trace w ++ evs /\
    sleeps evs = concat (repeat (repeat c (length cmd) ++ [l]) n) /\
    N.of_nat n * (N.of_nat (length cmd) * c + l) <= total (sleeps evs) /\
    clock w + N.of_nat n * (N.of_nat (length cmd) * c + l) <= clock w'.
Proof.
  intros Hs.
  destruct (runs_for_range ser cmd c l n w Hs)
    as ([] & w' & evs & E & _ & Ht & -> & _ & Hc).
  eexists w', _. repeat split; [exact E|exact Ht| | |exact Hc].
  - apply burst_events_sleeps.
  - rewrite burst_events_sleeps, burst_sleep_total. lia.
Qed.

Lemma burst_delay_witness :
  exists w' evs,
    burst config (mkSerial [] 9600 20000) (mkWorld 0 [] [3; 1] None [])
    = (Ok tt, w') /\
    trace w' = evs /\
    sleeps evs = concat (repeat (repeat 7000 10 ++ [9000]) 13) /\
    1027000 <= total (sleeps evs) /\
    1027000 <= clock w'.
Proof.
  exact (burst_delay (mkSerial [] 9600 20000) (CMD config) 7000 9000 13
           (mkWorld 0 [] [3; 1] None []) eq_refl).
Defined.

(** ** The read window *)

(** A turn on a silent line uses up one of the turns that are left. *)
Lemma silent_turn a a' T :
  0 < a -> a' + (T + 2000) <= a \/ a' = 0 ->
  (a' + T + 1999) / (T + 2000) + 1 <= (a + T + 1999) / (T + 2000).
Proof.
  intros Ha [H| ->].
  - rewrite <- (N.div_add (a' + T + 1999) 1 (T + 2000)) by lia.
    apply N.Div0.div_le_mono. lia.
  - rewrite (N.div_small (0 + T + 1999)) by lia.
    apply N.div_le_lower_bound; lia.
Qed.

Lemma turns_left_silent ser end_ w w2 fuel :
  rx w = [] -> rx w2 = [] -> clock w < end_ ->
  clock w + timeout ser + 2000 <= clock w2 ->
  (turns_left ser (end_ - clock w) w <= S fuel)%nat ->
  (turns_left ser (end_ - clock w2) w2 <= fuel)%nat.
Proof.
  unfold turns_left. intros -> -> Lt Hc H. cbn [length] in *.
  pose proof (silent_turn (end_ - clock w) (end_ - clock w2) (timeout ser))
    as S. lia.
Qed.

Lemma turns_left_line ser end_ w w2 fuel x :
  rx w = x :: rx w2 -> clock w <= clock w2 ->
  (turns_left ser (end_ - clock w) w <= S fuel)%nat ->
  (turns_left ser (end_ - clock w2) w2 <= fuel)%nat.
Proof.
  unfold turns_left. intros -> Hc H. cbn [length] in *.
  assert ((end_ - clock w2 + timeout ser + 1999) / (timeout ser + 2000)
          <= (end_ - clock w + timeout ser + 1999) / (timeout ser + 2000))
    by (apply N.Div0.div_le_mono; lia).
  lia.
Qed.

Lemma parse_line_empty : parse_line [] = None.
Proof. reflexivity. Qed.

Lemma readings_of_cons l ls :
  readings_of (l :: ls) = opt_list (parse_line l) ++ readings_of ls.
Proof. reflexivity. Qed.

Lemma runs_read_loop ser end_ fuel : forall readings w,
  sigint w = None ->
  (turns_left ser (end_ - clock w) w <= fuel)%nat ->
  runs (read_loop fuel ser end_ readings) w
       (fun rs w' evs =>
          rs = readings ++ readings_of (readlines evs) /\
          end_ <= clock w' /\ writes evs = [] /\ prints evs = []).
Proof.
  induction fuel as [|fuel IH]; intros readings w Hs Hfuel.
  - unfold turns_left in Hfuel. rewrite Nat.add_1_r in Hfuel.
    inversion Hfuel.
  - cbn [read_loop].
    apply runs_bind with
      (Q1 := fun now w' evs => now = clock w /\ w' = w /\ evs = []);
      [now apply runs_time_time|].
    intros now w0 evs0 _ (-> & -> & ->). cbn [app].
    destruct (clock w <? end_) eqn:Lt.
    + apply N.ltb_lt in Lt.
      eapply runs_bind; [now apply runs_ser_readline|].
      intros line w1 evs1 Hs1 (-> & Hrx).
      destruct (rx w) as [|[dt l] rest] eqn:Erx.
      * destruct Hrx as (-> & Hr1 & Hc1).
        eapply runs_bind; [now apply runs_time_sleep|].
        intros _ w2 evs2 Hs2 (-> & Hc2 & Hr2).
        eapply runs_weaken.
        { apply IH; [assumption|].
          apply (turns_left_silent ser end_ w w2 fuel); auto;
            try congruence; lia. }
        intros rs w3 evs3 (-> & Hend & Hw & Hp). cbn.
        repeat split; auto.
      * destruct Hrx as (-> & Hr1 & Hc1).
        assert (Hturn : forall w2, rx w2 = rest -> clock w1 <= clock w2 ->
                  (turns_left ser (end_ - clock w2) w2 <= fuel)%nat).
        { intros w2 Hr2 Hc2.
          apply (turns_left_line ser end_ w w2 fuel (dt, l)); auto;
            [congruence|lia]. }
        destruct l as [|c l'].
        -- eapply runs_bind; [now apply runs_time_sleep|].
           intros _ w2 evs2 Hs2 (-> & Hc2 & Hr2).
           eapply runs_weaken.
           { apply IH; [assumption|]. apply Hturn; [congruence|lia]. }
           intros rs w3 evs3 (-> & Hend & Hw & Hp). cbn.
           repeat split; auto.
        -- destruct (parse_line (c :: l')) as [r|] eqn:P.
           ++ eapply runs_weaken.
              { apply IH; [assumption|]. apply Hturn; [assumption|lia]. }
              intros rs w3 evs3 (-> & Hend & Hw & Hp).
              change (readlines ([Readline (c :: l')] ++ evs3))
                with ((c :: l') :: readlines evs3).
              rewrite readings_of_cons, P. cbn [opt_list].
              rewrite <- app_assoc. repeat split; auto.
           ++ eapply runs_weaken.
              { apply IH; [assumption|]. apply Hturn; [assumption|lia]. }
              intros rs w3 evs3 (-> & Hend & Hw & Hp).
              change (readlines ([Readline (c :: l')] ++ evs3))
                with ((c :: l') :: readlines evs3).
              rewrite readings_of_cons, P. repeat split; auto.
    + apply N.ltb_ge in Lt. apply runs_ret; auto.
      cbn. rewrite app_nil_r. auto.
Qed.

(** [read_window] always returns; it returns the readings of the lines it
    read, in the order of their arrival, and not before its deadline. *)
Lemma runs_read_window ser window_s w :
  sigint w = None ->
  runs (read_window ser window_s) w
       (fun rs w' evs =>
          rs = readings_of (readlines evs) /\
          clock w + window_s <= clock w' /\
          writes evs = [] /\ prints evs = []).
Proof.
  intros Hs. unfold read_window.
  apply runs_bind with
    (Q1 := fun now w' evs => now = clock w /\ w' = w /\ evs = []);
    [now apply runs_time_time|].
  intros now w0 evs0 _ (-> & -> & ->). cbn [app].
  apply (runs_read_loop ser (clock w + window_s)
           (turns_left ser window_s w) [] w Hs).
  replace (clock w + window_s - clock w) with window_s by lia.
  apply Nat.le_refl.
Qed.

(** ** One turn of the loop *)

Lemma runs_poll_cycle cfg ser last w :
  sigint w = None ->
  runs (poll_cycle cfg ser last) w
       (fun last' w' evs =>
          turn_reports cfg last evs last' /\
          writes evs
          = concat (repeat (map (fun c => [c]) (CMD cfg))
                           (REPEATS_PER_BURST cfg)) /\
          clock w + READ_WINDOW_MS cfg * 1000 <= clock w').
Proof.
  intros Hs. unfold poll_cycle, burst.
  eapply runs_bind; [now apply runs_for_range|].
  intros _ w1 evs1 Hs1 (-> & Hr1 & Hc1).
  pose proof (burst_events_quiet (CMD cfg) (CHAR_DELAY_MS cfg * 1000)
                (LINE_DELAY_MS cfg * 1000) (REPEATS_PER_BURST cfg))
    as [Hrl Hpr].
  pose proof (burst_events_writes (CMD cfg) (CHAR_DELAY_MS cfg * 1000)
                (LINE_DELAY_MS cfg * 1000) (REPEATS_PER_BURST cfg)) as Hwr.
  set (bevs := concat (repeat _ (REPEATS_PER_BURST cfg))) in *.
  eapply runs_bind; [now apply runs_read_window|].
  intros rs w2 evs2 Hs2 (-> & Hc2 & Hw2 & Hp2).
  unfold turn_reports, selected.
  destruct (rev (readings_of (readlines evs2))) as [|[[wt un] raw] rest]
    eqn:R.
  - apply runs_ret; auto.
    rewrite !readlines_app, !prints_app, !writes_app, Hrl, Hpr, Hp2, Hw2, Hwr.
    cbn [app readlines flat_map]. rewrite !app_nil_r, R. cbn.
    repeat split; auto. lia.
  - destruct (negb (ONLY_PRINT_ON_CHANGE cfg) || negb (same_text wt last))
      eqn:C.
    + apply runs_bind with
        (Q1 := fun ts w' evs => ts = clock w2 /\ w' = w2 /\ evs = []);
        [now apply runs_datetime_now|].
      intros ts w3 evs3 _ (-> & -> & ->).
      eapply runs_bind; [now apply runs_print|].
      intros _ w4 evs4 Hs4 (-> & Hc4 & Hr4).
      apply runs_ret; auto.
      rewrite !readlines_app, !prints_app, !writes_app, Hrl, Hpr, Hp2, Hw2,
        Hwr.
      cbn [app readlines prints writes flat_map]. rewrite !app_nil_r, R.
      cbn [hd_error]. rewrite C. repeat split; eauto. lia.
    + apply runs_ret; auto.
      rewrite !readlines_app, !prints_app, !writes_app, Hrl, Hpr, Hp2, Hw2,
        Hwr.
      cbn [app readlines flat_map]. rewrite !app_nil_r, R. cbn [hd_error].
      rewrite C. repeat split; auto. lia.
Qed.

Lemma poll_cycle_turn cfg ser last w last' w' evs :
  sigint w = None ->
  poll_cycle cfg ser last w = (Ok last', w') ->
  trace w' = trace w ++ evs ->
  sigint w' = None /\ turn_reports cfg last evs last'.
Proof.
  intros Hs E Ht.
  destruct (runs_inv _ _ _ _ _ _ (runs_poll_cycle cfg ser last w Hs) E Ht)
    as (Hs' & H & _).
  auto.
Qed.

Lemma selected_last evs rs r :
  readings_of (readlines evs) = rs ++ [r] -> selected evs = Some r.
Proof. unfold selected. intros ->. now rewrite rev_app_distr. Qed.

Lemma selected_none evs :
  readings_of (readlines evs) = [] -> selected evs = None.
Proof. unfold selected. now intros ->. Qed.

Lemma selected_some evs r :
  selected evs = Some r -> exists rs, readings_of (readlines evs) = rs ++ [r].
Proof.
  unfold selected. intros H.
  destruct (rev (readings_of (readlines evs))) as [|r0 rest] eqn:R;
    [discriminate|].
  injection H as ->. exists (rev rest).
  rewrite <- (rev_involutive (readings_of (readlines evs))), R. reflexivity.
Qed.

(** C8.  In a turn of the loop: with no reading in the window nothing is
    printed and [last_weight] stays as it was; whatever is printed is one
    report, made of the last reading of the window in arrival order; and
    with change-only reporting switched off a window with a reading always
    gives a report. *)
Theorem poll_cycle_reports (cfg : Config) (ser : Serial)
        (last last' : option str) (w w' : World) (evs : list event) :
  sigint w = None ->
  poll_cycle cfg ser last w = (Ok last', w') ->
  trace w' = trace w ++ evs ->
  (readings_of (readlines evs) = [] -> prints evs = [] /\ last' = last) /\
  (forall t, In t (prints evs) ->
     exists rs r ts,
       readings_of (readlines evs) = rs ++ [r] /\
       t = Report ts (reading_w r) (reading_u r) (reading_raw r) /\
       prints evs = [t]) /\
  (ONLY_PRINT_ON_CHANGE cfg = false ->
   forall rs r, readings_of (readlines evs) = rs ++ [r] ->
     exists ts,
       prints evs = [Report ts (reading_w r) (reading_u r) (reading_raw r)]).
Proof.
  intros Hs E Ht. destruct (poll_cycle_turn _ _ _ _ _ _ _ Hs E Ht) as [_ H].
  unfold turn_reports in H. split; [|split].
  - intros R. now rewrite (selected_none _ R) in H.
  - intros t Hin. destruct (selected evs) as [[[wt un] raw]|] eqn:Sel.
    + destruct (selected_some _ _ Sel) as (rs & R).
      destruct (negb (ONLY_PRINT_ON_CHANGE cfg) || negb (same_text wt last)).
      * destruct H as [(ts & Hp) _]. rewrite Hp in Hin |- *.
        destruct Hin as [<-|[]]. exists rs, (wt, un, raw), ts. auto.
      * destruct H as [Hp _]. rewrite Hp in Hin. destruct Hin.
    + destruct H as [Hp _]. rewrite Hp in Hin. destruct Hin.
  - intros Off rs [[wt un] raw] R. rewrite (selected_last _ _ _ R), Off in H.
    cbn in H. destruct H as [(ts & Hp) _]. eauto.
Qed.

Lemma poll_cycle_reports_witness :
  let evs := trace (snd (poll_cycle config the_port None
                                    three_replies_world)) in
  (readings_of (readlines evs) = [] ->
   prints evs = [] /\ Some (u "+012.50") = None) /\
  (forall t, In t (prints evs) ->
     exists rs r ts,
       readings_of (readlines evs) = rs ++ [r] /\
       t = Report ts (reading_w r) (reading_u r) (reading_raw r) /\
       prints evs = [t]) /\
  (ONLY_PRINT_ON_CHANGE config = false ->
   forall rs r, readings_of (readlines evs) = rs ++ [r] ->
     exists ts,
       prints evs = [Report ts (reading_w r) (reading_u r) (reading_raw r)]).
Proof.
  exact (poll_cycle_reports config the_port None (Some (u "+012.50"))
           three_replies_world
           (snd (poll_cycle config the_port None three_replies_world))
           (trace (snd (poll_cycle config the_port None three_replies_world)))
           eq_refl ltac:(vm_compute; reflexivity) eq_refl).
Defined.

(** ** Runs of the loop *)

Lemma each_turn_impl (P Q : option str -> list event -> option str -> Prop)
      turns : forall l,
  (forall l evs l', P l evs l' -> Q l evs l') ->
  each_turn P l turns -> each_turn Q l turns.
Proof.
  induction turns as [|[evs l1] rest IH]; intros l H; cbn; [auto|].
  intros [HP Hrest]. auto.
Qed.

Lemma run_turns cfg ser l w turns l' w' :
  run cfg ser l w turns l' w' -> sigint w = None ->
  each_turn (turn_reports cfg) l turns /\ sigint w' = None.
Proof.
  induction 1 as [l w|l w evs l1 w1 turns l2 w2 E Ht _ IH]; intros Hs.
  - cbn. auto.
  - destruct (poll_cycle_turn _ _ _ _ _ _ _ Hs E Ht) as [Hs1 Hturn].
    destruct (IH Hs1) as [Hrest Hs2]. cbn. auto.
Qed.

Lemma skipn_exact_events (x rest : list event) :
  skipn (length x) (x ++ rest) = rest.
Proof. induction x; cbn; auto. Qed.

(** The relation [run] is the loop itself. *)
Lemma run_while_true cfg ser l w turns l' w' :
  run cfg ser l w turns l' w' ->
  while_true (length turns) cfg ser l w = (Ok l', w').
Proof.
  induction 1 as [l w|l w evs l1 w1 turns l2 w2 E Ht _ IH]; [reflexivity|].
  cbn [length while_true]. unfold bind. now rewrite E.
Qed.

Lemma since_app w w' evs : trace w' = trace w ++ evs -> since w w' = evs.
Proof. unfold since. intros ->. apply skipn_exact_events. Qed.

Lemma while_true_run cfg ser n : forall l w,
  sigint w = None ->
  exists l' w',
    while_true n cfg ser l w = (Ok l', w') /\
    run cfg ser l w (turns_of n cfg ser l w) l' w'.
Proof.
  induction n as [|n IH]; intros l w Hs.
  - exists l, w. split; [reflexivity|constructor].
  - destruct (runs_poll_cycle cfg ser l w Hs)
      as (l1 & w1 & evs & E & Hs1 & Ht & _).
    destruct (IH l1 w1 Hs1) as (l' & w' & Ew & Hrun).
    exists l', w'. cbn [turns_of while_true].
    unfold bind. rewrite E. split; [exact Ew|].
    econstructor; eauto. now rewrite (since_app _ _ _ Ht).
Qed.

Lemma str_eqb_eq x y : str_eqb x y = true <-> x = y.
Proof.
  unfold str_eqb. destruct (list_eq_dec N.eq_dec x y); split; congruence.
Qed.

Lemma same_text_eq x y : same_text x y = true <-> x = y.
Proof.
  destruct x as [s|], y as [t|]; cbn; try (split; congruence).
  rewrite str_eqb_eq. split; congruence.
Qed.

Lemma same_text_refl x : same_text x x = true.
Proof. now apply same_text_eq. Qed.

(** The numeric text of a reading is never [None]. *)
Lemma parse_line_w line r :
  parse_line line = Some r -> exists x, reading_w r = Some x.
Proof.
  unfold parse_line.
  destruct (strip (decode_ignore line)) as [|c raw]; [discriminate|].
  unfold parse_raw. destruct (search RE_WEIGHT (c :: raw)) as [m|] eqn:E;
    [|discriminate].
  intros H. injection H as <-. cbn. now apply (search_group1 (c :: raw)).
Qed.

Lemma readings_of_w lines r :
  In r (readings_of lines) -> exists x, reading_w r = Some x.
Proof.
  unfold readings_of. rewrite in_flat_map. intros (line & _ & H).
  destruct (parse_line line) as [r0|] eqn:E; cbn in H; [|destruct H].
  destruct H as [<-|[]]. now apply (parse_line_w line).
Qed.

Lemma selected_w evs r : selected evs = Some r -> exists x, reading_w r = Some x.
Proof.
  intros H. destruct (selected_some _ _ H) as (rs & R).
  apply (readings_of_w (readlines evs)). rewrite R.
  apply in_or_app. right. now left.
Qed.

(** C6.  With change-only reporting on, a turn of the loop either leaves
    [last_weight] alone and prints nothing, or prints one report and sets
    [last_weight] to the text reported, which is a text other than the one
    it held: the variable is never set back to [None] and never changes
    without a report. *)
Theorem last_weight_changes (cfg : Config) (ser : Serial) (w0 w' : World)
        (l0 l' : option str) (turns : list (list event * option str)) :
  ONLY_PRINT_ON_CHANGE cfg = true ->
  sigint w0 = None ->
  run cfg ser l0 w0 turns l' w' ->
  each_turn
    (fun l evs l1 =>
       (l1 = l /\ prints evs = [])
       \/ exists ts x un raw,
            l1 = Some x /\ l <> Some x /\
            prints evs = [Report ts (Some x) un raw])
    l0 turns.
Proof.
  intros On Hs Hrun. destruct (run_turns _ _ _ _ _ _ _ Hrun Hs) as [H _].
  revert H. apply each_turn_impl. clear - On. intros l evs l1.
  unfold turn_reports. destruct (selected evs) as [[[wt un] raw]|] eqn:Sel.
  - rewrite On. cbn [negb orb].
    destruct (same_text wt l) eqn:Same; cbn [negb].
    + intros [Hp ->]. auto.
    + intros [(ts & Hp) ->]. right.
      destruct (selected_w _ _ Sel) as (x & Hx). cbn in Hx. subst wt.
      exists ts, x, un, raw. repeat split; auto.
      intros ->. now rewrite same_text_refl in Same.
  - intros [Hp ->]. auto.
Qed.

Lemma three_replies_run :
  exists l' w',
    run config the_port None three_replies_world three_replies_turns l' w'.
Proof.
  destruct (while_true_run config the_port 3 None three_replies_world eq_refl)
    as (l' & w' & _ & Hrun).
  exists l', w'.
  replace three_replies_turns
    with (turns_of 3 config the_port None three_replies_world)
    by (vm_compute; reflexivity).
  exact Hrun.
Qed.

Lemma same_reply_run :
  exists l' w',
    run config the_port None same_reply_world same_reply_turns l' w'.
Proof.
  destruct (while_true_run config the_port 3 None same_reply_world eq_refl)
    as (l' & w' & _ & Hrun).
  exists l', w'.
  replace same_reply_turns
    with (turns_of 3 config the_port None same_reply_world)
    by (vm_compute; reflexivity).
  exact Hrun.
Qed.

Lemma last_weight_changes_witness :
  each_turn
    (fun l evs l1 =>
       (l1 = l /\ prints evs = [])
       \/ exists ts x un raw,
            l1 = Some x /\ l <> Some x /\
            prints evs = [Report ts (Some x) un raw])
    None three_replies_turns.
Proof.
  destruct three_replies_run as (l' & w' & Hrun).
  exact (last_weight_changes config the_port three_replies_world w' None l'
           three_replies_turns eq_refl eq_refl Hrun).
Defined.

(** ** The same weight again and again *)

Lemma quiet_turns cfg l quiet rest :
  each_turn (turn_reports cfg) l (quiet ++ rest) ->
  Forall (fun t => selected (fst t) = None) quiet ->
  Forall (fun t => prints (fst t) = []) quiet
  /\ each_turn (turn_reports cfg) l rest.
Proof.
  revert l. induction quiet as [|[evs l1] quiet IH]; intros l H Hq.
  - auto.
  - cbn [app each_turn] in H. destruct H as [Hturn H].
    inversion Hq as [|? ? Hsel Hq']; subst. cbn [fst] in Hsel.
    unfold turn_reports in Hturn. rewrite Hsel in Hturn.
    destruct Hturn as [Hp ->]. destruct (IH l H Hq') as [Hps Hrest].
    split; [constructor|]; auto.
Qed.

Lemma repeated_turns cfg x later :
  ONLY_PRINT_ON_CHANGE cfg = true ->
  each_turn (turn_reports cfg) (Some x) later ->
  Forall (fun t => forall r, selected (fst t) = Some r
                             -> reading_w r = Some x) later ->
  Forall (fun t => prints (fst t) = []) later.
Proof.
  intros On. induction later as [|[evs l1] later IH]; intros H Hl.
  - constructor.
  - cbn [each_turn] in H. destruct H as [Hturn H].
    inversion Hl as [|? ? Hsel Hl']; subst. cbn [fst] in Hsel.
    unfold turn_reports in Hturn.
    destruct (selected evs) as [[[wt un] raw]|].
    + specialize (Hsel _ eq_refl). cbn in Hsel. subst wt.
      rewrite On, same_text_refl in Hturn. cbn in Hturn.
      destruct Hturn as [Hp ->]. constructor; auto.
    + destruct Hturn as [Hp ->]. constructor; auto.
Qed.

(** C5.  With change-only reporting on and every selected reading carrying
    the same numeric text [x], the loop prints exactly one report: in the
    first turn that selects a reading; the turns before it, which select
    none, print nothing, and no later turn prints anything. *)
Theorem same_weight_reported_once (cfg : Config) (ser : Serial)
        (w0 w' : World) (l' l1 : option str) (x : str)
        (quiet later : list (list event * option str)) (evs1 : list event) :
  ONLY_PRINT_ON_CHANGE cfg = true ->
  sigint w0 = None ->
  run cfg ser None w0 (quiet ++ (evs1, l1) :: later) l' w' ->
  Forall (fun t => selected (fst t) = None) quiet ->
  (exists r, selected evs1 = Some r /\ reading_w r = Some x) ->
  Forall (fun t => forall r, selected (fst t) = Some r
                             -> reading_w r = Some x) later ->
  Forall (fun t => prints (fst t) = []) quiet
  /\ (exists ts un raw, prints evs1 = [Report ts (Some x) un raw])
  /\ Forall (fun t => prints (fst t) = []) later.
Proof.
  intros On Hs Hrun Hq ([[wt un] raw] & Hsel & Hw) Hl. cbn in Hw. subst wt.
  destruct (run_turns _ _ _ _ _ _ _ Hrun Hs) as [H _].
  destruct (quiet_turns _ _ _ _ H Hq) as [Hquiet Hrest].
  cbn [each_turn] in Hrest. destruct Hrest as [Hturn Hlater].
  unfold turn_reports in Hturn. rewrite Hsel, On in Hturn. cbn in Hturn.
  destruct Hturn as [(ts & Hp) ->].
  split; [exact Hquiet|]. split; [eauto|].
  now apply (repeated_turns cfg x).
Qed.

Lemma same_weight_reported_once_witness :
  Forall (fun t : list event * option str => prints (fst t) = []) []
  /\ (exists ts un raw,
        prints (fst (turn 0 same_reply_turns))
        = [Report ts (Some (u "+012.50")) un raw])
  /\ Forall (fun t => prints (fst t) = []) (tl same_reply_turns).
Proof.
  destruct same_reply_run as (l' & w' & Hrun).
  refine (same_weight_reported_once config the_port same_reply_world w' l'
            (snd (turn 0 same_reply_turns)) (u "+012.50") []
            (tl same_reply_turns) (fst (turn 0 same_reply_turns))
            eq_refl eq_refl Hrun (Forall_nil _) _ _).
  - exists (Some (u "+012.50"), u "kg", u "+012.50 kg").
    split; vm_compute; reflexivity.
  - repeat constructor; intros r H; vm_compute in H; injection H as <-;
      reflexivity.
Defined.

(** ** Three replies *)

Lemma readings_of_texts evs :
  readings_of (readlines evs)
  = flat_map (fun raw => opt_list (parse_raw raw)) (texts evs).
Proof.
  unfold texts, readings_of.
  induction (readlines evs) as [|line lines IH]; [reflexivity|].
  cbn [flat_map map filter]. rewrite IH. unfold parse_line.
  destruct (strip (decode_ignore line)); reflexivity.
Qed.

Lemma selected_one_text evs raw :
  texts evs = [raw] -> selected evs = parse_raw raw.
Proof.
  unfold selected. rewrite readings_of_texts. intros ->.
  cbn [flat_map]. rewrite app_nil_r. now destruct (parse_raw raw).
Qed.

Lemma turn_reports_new cfg l evs l' w un raw :
  turn_reports cfg l evs l' -> selected evs = Some (w, un, raw) ->
  negb (ONLY_PRINT_ON_CHANGE cfg) || negb (same_text w l) = true ->
  (exists ts, prints evs = [Report ts w un raw]) /\ l' = w.
Proof. unfold turn_reports. intros H E C. now rewrite E, C in H. Qed.

Lemma turn_reports_same cfg l evs l' w un raw :
  turn_reports cfg l evs l' -> selected evs = Some (w, un, raw) ->
  negb (ONLY_PRINT_ON_CHANGE cfg) || negb (same_text w l) = false ->
  prints evs = [] /\ l' = l.
Proof. unfold turn_reports. intros H E C. now rewrite E, C in H. Qed.

(** C1, as the program has it.  Three turns receive [+012.50 kg],
    [+012.50 kg] and [+013.00 kg], one line each, with change-only
    reporting on and no weight remembered: exactly two reports are printed,
    and their value texts are [+012.50] and [+013.00], sign included. *)
Theorem three_replies_two_reports (ser : Serial) (w0 w' : World)
        (e1 e2 e3 : list event) (l1 l2 l3 l' : option str) :
  sigint w0 = None ->
  run config ser None w0 [(e1, l1); (e2, l2); (e3, l3)] l' w' ->
  texts e1 = [u "+012.50 kg"] ->
  texts e2 = [u "+012.50 kg"] ->
  texts e3 = [u "+013.00 kg"] ->
  exists ts1 ts3,
    prints e1 ++ prints e2 ++ prints e3
    = [Report ts1 (Some (u "+012.50")) (u "kg") (u "+012.50 kg");
       Report ts3 (Some (u "+013.00")) (u "kg") (u "+013.00 kg")].
Proof.
  intros Hs Hrun T1 T2 T3.
  destruct (run_turns _ _ _ _ _ _ _ Hrun Hs) as [(H1 & H2 & H3 & _) _].
  apply selected_one_text in T1, T2, T3.
  destruct (turn_reports_new _ _ _ _ _ _ _ H1 T1 eq_refl) as [(ts1 & P1) ->].
  destruct (turn_reports_same _ _ _ _ _ _ _ H2 T2 eq_refl) as [P2 ->].
  destruct (turn_reports_new _ _ _ _ _ _ _ H3 T3 eq_refl) as [(ts3 & P3) ->].
  exists ts1, ts3. now rewrite P1, P2, P3.
Qed.

Lemma three_replies_two_reports_witness :
  exists ts1 ts3,
    prints (fst (turn 0 three_replies_turns))
    ++ prints (fst (turn 1 three_replies_turns))
    ++ prints (fst (turn 2 three_replies_turns))
    = [Report ts1 (Some (u "+012.50")) (u "kg") (u "+012.50 kg");
       Report ts3 (Some (u "+013.00")) (u "kg") (u "+013.00 kg")].
Proof.
  destruct three_replies_run as (l' & w' & Hrun).
  exact (three_replies_two_reports the_port three_replies_world w'
           (fst (turn 0 three_replies_turns))
           (fst (turn 1 three_replies_turns))
           (fst (turn 2 three_replies_turns))
           (snd (turn 0 three_replies_turns))
           (snd (turn 1 three_replies_turns))
           (snd (turn 2 three_replies_turns)) l' eq_refl Hrun
           ltac:(vm_compute; reflexivity) ltac:(vm_compute; reflexivity)
           ltac:(vm_compute; reflexivity)).
Defined.

(** C1 as the specification words it fails: in this run of three turns the
    replies are the three of the scenario, and the value texts printed are
    [+012.50] and [+013.00], not [012.50] and [013.00]. *)
Lemma three_replies_values_not_unsigned :
  map (fun t => texts (fst t)) three_replies_turns
  = [[u "+012.50 kg"]; [u "+012.50 kg"]; [u "+013.00 kg"]]
  /\ printed_values (flat_map (fun t => prints (fst t)) three_replies_turns)
     = [Some (u "+012.50"); Some (u "+013.00")]
  /\ printed_values (flat_map (fun t => prints (fst t)) three_replies_turns)
     <> [Some (u "012.50"); Some (u "013.00")].
Proof.
  vm_compute. repeat split; discriminate.
Qed.

(** ** Lines that give no reading *)

Lemma parse_line_no_digit line : has_digit line = false -> parse_line line = None.
Proof.
  unfold has_digit, parse_line. intros H.
  destruct (strip (decode_ignore line)) as [|c raw]; [reflexivity|].
  unfold parse_raw. now rewrite (search_no_digit _ H).
Qed.

Lemma parse_line_digit line :
  has_digit line = true -> exists r, parse_line line = Some r.
Proof.
  unfold has_digit, parse_line. intros H.
  destruct (strip (decode_ignore line)) as [|c raw]; [discriminate|].
  destruct (parse_raw_first_number_digit (c :: raw) H) as (r & E). eauto.
Qed.

Lemma readings_of_digit_lines lines :
  readings_of (filter has_digit lines) = readings_of lines.
Proof.
  induction lines as [|line lines IH]; [reflexivity|].
  cbn [filter]. destruct (has_digit line) eqn:D.
  - now rewrite !readings_of_cons, IH.
  - now rewrite readings_of_cons, (parse_line_no_digit _ D), IH.
Qed.

Lemma no_digit_kinds line :
  line = [] \/ decode_ignore line = [] \/ strip (decode_ignore line) = []
  \/ existsb is_digit (strip (decode_ignore line)) = false ->
  has_digit line = false.
Proof.
  unfold has_digit. intros [-> | [-> | [-> | H]]]; auto.
Qed.

(** C7, as the program has it.  An empty read, a line none of whose bytes
    decode, a line that is blank once stripped and a line without a digit
    give no Reading; a line that has a digit among the characters that do
    decode gives one; [read_window] returns without an error, with the
    readings of these lines only, and not before its deadline. *)
Theorem read_window_skips (ser : Serial) (window_s : N) (w : World) :
  sigint w = None ->
  (forall line,
     line = [] \/ decode_ignore line = [] \/ strip (decode_ignore line) = []
     \/ existsb is_digit (strip (decode_ignore line)) = false ->
     parse_line line = None) /\
  (forall line, has_digit line = true -> exists r, parse_line line = Some r) /\
  exists rs w' evs,
    read_window ser window_s w = (Ok rs, w') /\
    trace w' = trace w ++ evs /\
    rs = readings_of (filter has_digit (readlines evs)) /\
    clock w + window_s <= clock w'.
Proof.
  intros Hs. split; [|split].
  - intros line H. apply parse_line_no_digit. now apply no_digit_kinds.
  - intros line H. now apply parse_line_digit.
  - destruct (runs_read_window ser window_s w Hs)
      as (rs & w' & evs & E & _ & Ht & -> & Hc & _).
    exists (readings_of (readlines evs)), w', evs.
    rewrite readings_of_digit_lines. auto.
Qed.

Lemma read_window_skips_witness :
  (forall line,
     line = [] \/ decode_ignore line = [] \/ strip (decode_ignore line) = []
     \/ existsb is_digit (strip (decode_ignore line)) = false ->
     parse_line line = None) /\
  (forall line, has_digit line = true -> exists r, parse_line line = Some r) /\
  exists rs w' evs,
    read_window the_port 160000
                (mkWorld 0 [(1000, []); (1000, [xff; xfe]);
                            (1000, b "  " ++ [x0d; x0a]); (1000, b "N/A")]
                         [] None [])
    = (Ok rs, w') /\
    trace w' = [] ++ evs /\
    rs = readings_of (filter has_digit (readlines evs)) /\
    0 + 160000 <= clock w'.
Proof.
  exact (read_window_skips the_port 160000
           (mkWorld 0 [(1000, []); (1000, [xff; xfe]);
                       (1000, b "  " ++ [x0d; x0a]); (1000, b "N/A")]
                    [] None [])
           eq_refl).
Defined.

(** C7 as the specification words it fails: a line with a byte that does
    not decode still gives a Reading, read from the characters that do. *)
Lemma undecodable_byte_still_read :
  dropped_bytes garbled_line = 1%nat
  /\ parse_line garbled_line = Some (Some (u "12.5"), u "kg", u "12.5 kg")
  /\ fst (read_window the_port 160000
                      (mkWorld 0 [(1000, garbled_line)] [] None []))
     = Ok [(Some (u "12.5"), u "kg", u "12.5 kg")].
Proof. vm_compute. repeat split. Qed.

(** ** Ctrl+C *)

Lemma closes_app e1 e2 : closes (e1 ++ e2) = (closes e1 + closes e2)%nat.
Proof. unfold closes. now rewrite filter_app, length_app. Qed.

Lemma counts_ret {A} (a : A) : counts 0 (ret a).
Proof.
  intros w k Hs. exists []. cbn. rewrite app_nil_r.
  repeat split; auto. exists k. repeat split; auto; lia.
Qed.

Lemma counts_bind {A B} c1 c2 (m : M A) (f : A -> M B) :
  counts c1 m -> (forall a, counts c2 (f a)) -> counts (c1 + c2) (bind m f).
Proof.
  intros Hm Hf w k Hs. destruct (Hm w k Hs) as (evs1 & Ht1 & Hc1 & H1).
  unfold bind. destruct (m w) as [[a|] w1]; cbn [fst snd] in *.
  - destruct H1 as (j & Hs1 & Hl1 & Hj1).
    destruct (Hf a w1 j Hs1) as (evs2 & Ht2 & Hc2 & H2).
    exists (evs1 ++ evs2).
    rewrite Ht2, Ht1, app_assoc, closes_app, Hc1, Hc2, length_app.
    repeat split; auto.
    destruct (fst (f a w1)).
    + destruct H2 as (j2 & Hs2 & Hl2 & Hj2). exists j2.
      repeat split; auto; lia.
    + destruct H2 as [Hs2 Hl2]. split; auto. lia.
  - exists evs1. destruct H1. repeat split; auto.
Qed.

Lemma counts_weaken {A} c c' (m : M A) :
  counts c m -> (c' <= c)%nat -> counts c' m.
Proof.
  intros Hm Hle w k Hs. destruct (Hm w k Hs) as (evs & Ht & Hc & H).
  exists evs. repeat split; auto. destruct (fst (m w)); auto.
  destruct H as (j & Hs1 & Hl & Hj). exists j. repeat split; auto. lia.
Qed.

Lemma counts_effect {A} (f : World -> A * World) :
  (forall w, sigint (snd (f w)) = sigint w /\
             exists evs, trace (snd (f w)) = trace w ++ evs /\
                         (length evs <= 1)%nat /\ closes evs = O) ->
  counts 1 (effect f).
Proof.
  intros Hf w k Hs. unfold effect, bind, deliver_signal. rewrite Hs.
  destruct k as [|k].
  - exists []. cbn. rewrite app_nil_r. repeat split; auto.
  - set (w1 := mkWorld (clock w) (rx w) (lag w) (Some k) (trace w)).
    destruct (Hf w1) as (Hs1 & evs & Ht & Hl & Hc).
    destruct (f w1) as [a w']. cbn [fst snd] in *.
    exists evs. repeat split; auto. exists k. repeat split; auto; lia.
Qed.

Ltac one_event e :=
  intros w; split; [reflexivity|]; exists [e]; repeat split; auto.

Lemma counts_time_time : counts 1 time_time.
Proof.
  apply counts_effect. intros w. split; [reflexivity|]. exists [].
  cbn. rewrite app_nil_r. auto.
Qed.

Lemma counts_time_sleep d : counts 1 (time_sleep d).
Proof. apply counts_effect. one_event (Slept d). Qed.

Lemma counts_ser_write ser data : counts 1 (ser_write ser data).
Proof. apply counts_effect. one_event (Wrote data). Qed.

Lemma counts_print t : counts 1 (print t).
Proof. apply counts_effect. one_event (Printed t). Qed.

Lemma counts_ser_readline ser : counts 1 (ser_readline ser).
Proof.
  apply counts_effect. intros w.
  destruct (rx w) as [|[dt l] rest]; cbn [fst snd].
  - split; [reflexivity|]. exists [Readline []]. repeat split; auto.
  - split; [reflexivity|]. exists [Readline l]. repeat split; auto.
Qed.

Lemma counts_send_cmd ser cmd c l : counts 0 (send_cmd ser cmd c l).
Proof.
  unfold send_cmd. apply (counts_weaken (0 + 1)); [|lia].
  apply counts_bind; [|intros _; apply counts_time_sleep].
  induction cmd as [|x cmd IH]; cbn [for_each]; [apply counts_ret|].
  apply (counts_weaken ((1 + 1) + 0)); [|lia].
  apply counts_bind; [|intros _; exact IH].
  apply counts_bind; [apply counts_ser_write|].
  intros _. apply counts_time_sleep.
Qed.

Lemma counts_for_range n (body : M unit) :
  counts 0 body -> counts 0 (for_range n body).
Proof.
  intros Hb. induction n as [|n IH]; cbn [for_range]; [apply counts_ret|].
  apply (counts_bind 0 0); auto.
Qed.

Lemma counts_read_loop ser end_ fuel : forall readings,
  counts 0 (read_loop fuel ser end_ readings).
Proof.
  induction fuel as [|fuel IH]; intros readings; cbn [read_loop];
    [apply counts_ret|].
  apply (counts_weaken (1 + 0)); [|lia].
  apply counts_bind; [apply counts_time_time|]. intros now.
  destruct (now <? end_); [|apply counts_ret].
  apply (counts_weaken (1 + 0)); [|lia].
  apply counts_bind; [apply counts_ser_readline|]. intros line.
  destruct line as [|c l].
  - apply (counts_weaken (1 + 0)); [|lia].
    apply counts_bind; [apply counts_time_sleep|]. intros _. apply IH.
  - destruct (parse_line (c :: l)); apply IH.
Qed.

Lemma counts_read_window ser window_s : counts 1 (read_window ser window_s).
Proof.
  unfold read_window. apply (counts_bind 1 0); [apply counts_time_time|].
  intros now w k Hs.
  apply (counts_read_loop ser (now + window_s) (turns_left ser window_s w) []
           w k Hs).
Qed.

Lemma counts_poll_cycle cfg ser last : counts 1 (poll_cycle cfg ser last).
Proof.
  unfold poll_cycle, burst. apply (counts_bind 0 1).
  - apply counts_for_range, counts_send_cmd.
  - intros _. apply (counts_bind 1 0); [apply counts_read_window|].
    intros readings. destruct (rev readings) as [|[[wt un] raw] rest];
      [apply counts_ret|].
    destruct (negb (ONLY_PRINT_ON_CHANGE cfg) || negb (same_text wt last));
      [|apply counts_ret].
    apply (counts_weaken (1 + (1 + 0))); [|lia].
    apply counts_bind; [apply counts_time_time|]. intros ts.
    apply counts_bind; [apply counts_print|]. intros _. apply counts_ret.
Qed.

Lemma counts_while_true cfg ser n : forall last,
  counts n (while_true n cfg ser last).
Proof.
  induction n as [|n IH]; intros last; cbn [while_true];
    [apply counts_ret|].
  apply (counts_bind 1 n); [apply counts_poll_cycle|]. exact IH.
Qed.

(** C10, as the program has it.  Ctrl+C arrives [n] library calls into the
    loop: the call in progress raises, so the loop adds at most [n] events
    and what was left of the burst or of the read window is not run;
    [Stopped.] is printed and the port is closed, once. *)
Theorem interrupt_stops_at_once (cfg : Config) (w : World) (n cycles : nat) :
  sigint w = Some (S n) ->
  (n < cycles)%nat ->
  exists w' evs,
    main cfg cycles w = (Returned, w') /\
    trace w'
    = trace w ++ [Opened (PORT cfg) (BAUD cfg) 20000; Printed (Line banner)]
      ++ evs ++ [Printed (Line stopped); Closed] /\
    (length evs <= n)%nat /\ closes evs = O.
Proof.
  intros Hs Hn. unfold main, print at 1, effect, bind, deliver_signal.
  cbn [log sigint]. rewrite Hs.
  set (w2 := log (Printed (Line banner)) _).
  set (ser := mkSerial _ _ _).
  destruct (counts_while_true cfg ser cycles None w2 n eq_refl)
    as (evs & Ht & Hc & H).
  destruct (while_true cycles cfg ser None w2) as [[l|] w3];
    cbn [fst snd] in *.
  - destruct H as (j & _ & _ & Hj). lia.
  - destruct H as [Hs3 Hl]. unfold print, effect, bind, deliver_signal.
    rewrite Hs3. eexists _, evs. split; [reflexivity|].
    cbn [log trace]. rewrite Ht. subst w2. cbn [log trace].
    rewrite <- !app_assoc. auto.
Qed.

Lemma interrupt_stops_at_once_witness :
  exists w' evs,
    main config 4 interrupted_world = (Returned, w') /\
    trace w'
    = [] ++ [Opened (PORT config) (BAUD config) 20000; Printed (Line banner)]
      ++ evs ++ [Printed (Line stopped); Closed] /\
    (length evs <= 3)%nat /\ closes evs = O.
Proof.
  exact (interrupt_stops_at_once config interrupted_world 3 4 eq_refl
           ltac:(repeat constructor)).
Defined.

(** C10 as the specification words it fails: Ctrl+C in the second pause of
    a burst ends the burst there.  Two of its 130 bytes have been written,
    the read window is never entered, and the program says [Stopped.] and
    closes the port. *)
Lemma interrupt_cuts_burst_short :
  fst (main config 1 interrupted_world) = Returned
  /\ trace (snd (main config 1 interrupted_world))
     = [Opened (PORT config) (BAUD config) 20000; Printed (Line banner);
        Wrote ["@"%byte]; Slept 7000; Wrote ["P"%byte];
        Printed (Line stopped); Closed]
  /\ writes (trace (snd (main config 1 interrupted_world)))
     <> concat (repeat (map (fun c => [c]) (CMD config)) 13)
  /\ readlines (trace (snd (main config 1 interrupted_world))) = [].
Proof.
  vm_compute. repeat split. discriminate.
Qed.

(** * Further properties *)

(** ** What a Reading holds *)

Lemma search_some_digit raw g :
  search RE_WEIGHT raw = Some g -> existsb is_digit raw = true.
Proof.
  intros H. destruct (existsb is_digit raw) eqn:D; [reflexivity|].
  rewrite (search_no_digit _ D) in H. discriminate.
Qed.

Lemma parse_line_raw line w un raw :
  parse_line line = Some (w, un, raw) ->
  raw = strip (decode_ignore line) /\ parse_raw raw = Some (w, un, raw).
Proof.
  unfold parse_line. destruct (strip (decode_ignore line)) as [|c r];
    [discriminate|].
  intros H. assert (E : raw = c :: r).
  { unfold parse_raw in H. destruct (search RE_WEIGHT (c :: r));
      [now injection H|discriminate]. }
  subst raw. auto.
Qed.

Lemma parse_raw_digit raw r :
  parse_raw raw = Some r -> existsb is_digit raw = true.
Proof.
  unfold parse_raw. destruct (search RE_WEIGHT raw) as [g|] eqn:E;
    [|discriminate].
  intros _. now apply (search_some_digit raw g).
Qed.

(** The numeric text of a Reading is the first number of its line: the
    leftmost sign-digits-fraction text, taken as long as it goes; and [raw]
    is the line decoded and stripped, never empty. *)
Theorem reading_number (line : bytes) (w : option str) (un raw : str) :
  parse_line line = Some (w, un, raw) ->
  raw = strip (decode_ignore line) /\ raw <> [] /\
  exists x, w = Some x /\ first_number raw x.
Proof.
  intros H. destruct (parse_line_raw _ _ _ _ H) as [Hraw Hparse].
  split; [exact Hraw|]. split.
  - intros ->. discriminate (parse_raw_digit _ _ Hparse).
  - destruct (first_number_exists raw (parse_raw_digit _ _ Hparse))
      as (x & Hx).
    destruct (parse_raw_first_number raw x Hx) as (un' & E).
    exists x. split; [congruence|exact Hx].
Qed.

Lemma reading_number_witness :
  u "N/A 3" = strip (decode_ignore (b "  N/A 3" ++ [x0d; x0a]))
  /\ u "N/A 3" <> []
  /\ exists x, Some (u "3") = Some x /\ first_number (u "N/A 3") x.
Proof.
  exact (reading_number (b "  N/A 3" ++ [x0d; x0a]) (Some (u "3")) []
           (u "N/A 3") eq_refl).
Defined.

Lemma run_prefix p (s : str) : forallb p (firstn (run_length p s) s) = true.
Proof.
  induction s as [|c s IH]; [reflexivity|]. cbn [run_length].
  destruct (p c) eqn:E; [|reflexivity]. cbn. now rewrite E.
Qed.

Lemma run_rest p (s : str) :
  starts_with p (skipn (run_length p s) s) = false.
Proof.
  induction s as [|c s IH]; [reflexivity|]. cbn [run_length].
  destruct (p c) eqn:E; [exact IH|]. cbn. exact E.
Qed.

Lemma unit_after_number tail x :
  or_empty (group (after_number tail [(1%nat, x)]) 2)
  = firstn (run_length is_unit (skipn (run_length is_space tail) tail))
           (skipn (run_length is_space tail) tail).
Proof.
  unfold after_number. set (t1 := skipn (run_length is_space tail) tail).
  destruct (run_length is_unit t1) as [|n] eqn:E; [reflexivity|].
  cbn [group Nat.eqb]. destruct t1 as [|c t1']; [discriminate|].
  reflexivity.
Qed.

Lemma parse_raw_number_unit pre sg d f tail :
  existsb is_digit pre = false ->
  is_sign_part sg = true -> is_digits d = true -> is_fraction f = true ->
  (sg = [] -> ends_with is_sign pre = false) ->
  starts_with is_digit tail = false ->
  (f = [] -> starts_fraction tail = false) ->
  parse_raw (pre ++ sg ++ d ++ f ++ tail)
  = Some (Some (sg ++ d ++ f),
          firstn (run_length is_unit (skipn (run_length is_space tail) tail))
                 (skipn (run_length is_space tail) tail),
          pre ++ sg ++ d ++ f ++ tail).
Proof.
  intros Hp Hs Hd Hf Hend Htail Hnf.
  unfold parse_raw. rewrite search_prefix; auto.
  - rewrite (search_here _ _ _
               (match_here_number sg d f tail Hs Hd Hf Htail Hnf)).
    rewrite group_after_number, unit_after_number. reflexivity.
  - intros Hx. apply Hend. destruct sg as [|c sg']; [reflexivity|].
    destruct sg'; [|discriminate]. cbn in Hs, Hx. congruence.
  - apply is_digits_cons in Hd as (c & d' & -> & Hc & _).
    destruct sg as [|c0 sg']; cbn [app starts_with].
    + rewrite Hc. apply orb_true_r.
    + destruct sg'; [|discriminate]. cbn in Hs. now rewrite Hs.
Qed.

(** The unit of a Reading is what follows its number in the line: after
    the number comes white space, as much as there is, then the unit, which
    is the longest run of letters and percent signs there, or empty when
    none follows. *)
Theorem reading_unit (line : bytes) (x un raw : str) :
  parse_line line = Some (Some x, un, raw) ->
  exists pre sp rest,
    raw = pre ++ x ++ sp ++ un ++ rest /\
    existsb is_digit pre = false /\
    forallb is_space sp = true /\ forallb is_unit un = true /\
    starts_with is_unit rest = false /\
    (un = [] -> starts_with is_space rest = false).
Proof.
  intros H. destruct (parse_line_raw _ _ _ _ H) as [_ Hparse].
  destruct (first_number_exists raw (parse_raw_digit _ _ Hparse))
    as (x' & pre & sg & d & f & tail & -> & -> & Hp & Hs & Hd & Hf & Hend
        & Htail & Hnf).
  rewrite (parse_raw_number_unit pre sg d f tail) in Hparse by assumption.
  injection Hparse as <- <-.
  set (sp := firstn (run_length is_space tail) tail).
  set (t1 := skipn (run_length is_space tail) tail).
  exists pre, sp, (skipn (run_length is_unit t1) t1).
  split; [|split; [exact Hp|split; [apply run_prefix|
                     split; [apply run_prefix|split; [apply run_rest|]]]]].
  - rewrite (firstn_skipn (run_length is_unit t1) t1).
    unfold sp, t1. rewrite (firstn_skipn (run_length is_space tail) tail).
    now rewrite <- !app_assoc.
  - intros E.
    assert (R0 : run_length is_unit t1 = O).
    { destruct (run_length is_unit t1) eqn:R; [reflexivity|].
      destruct t1; [discriminate R|discriminate E]. }
    rewrite R0. apply run_rest.
Qed.

Lemma reading_unit_witness :
  exists pre sp rest,
    u "T= -12.5  kg!" = pre ++ u "-12.5" ++ sp ++ u "kg" ++ rest /\
    existsb is_digit pre = false /\
    forallb is_space sp = true /\ forallb is_unit (u "kg") = true /\
    starts_with is_unit rest = false /\
    (u "kg" = [] -> starts_with is_space rest = false).
Proof.
  exact (reading_unit (b "T= -12.5  kg!") (u "-12.5") (u "kg")
           (u "T= -12.5  kg!") eq_refl).
Defined.

Lemma lstrip_head s : starts_with is_space (lstrip s) = false.
Proof.
  induction s as [|c s IH]; [reflexivity|]. cbn [lstrip].
  destruct (is_space c) eqn:E; [exact IH|]. cbn. exact E.
Qed.

Lemma ends_with_rev p (s : str) : ends_with p (rev s) = starts_with p s.
Proof.
  destruct s as [|c s]; [reflexivity|]. cbn [rev starts_with].
  induction (rev s) as [|c' t IH]; [reflexivity|].
  cbn [app]. destruct t; exact IH.
Qed.

(** [lstrip] takes a prefix away. *)
Lemma lstrip_suffix s : exists sp, s = sp ++ lstrip s.
Proof.
  induction s as [|c s (sp & IH)]; [now exists []|]. cbn [lstrip].
  destruct (is_space c).
  - exists (c :: sp). cbn. now f_equal.
  - now exists [].
Qed.

Lemma strip_head s : starts_with is_space (strip s) = false.
Proof.
  unfold strip. pose proof (lstrip_head s) as H.
  destruct (lstrip_suffix (rev (lstrip s))) as (sp & E).
  apply (f_equal (@rev N)) in E. rewrite rev_involutive, rev_app_distr in E.
  destruct (rev (lstrip (rev (lstrip s)))) as [|c t]; [reflexivity|].
  rewrite E in H. exact H.
Qed.

Lemma strip_last s : ends_with is_space (strip s) = false.
Proof. unfold strip. rewrite ends_with_rev. apply lstrip_head. Qed.

(** [raw] of a Reading begins and ends with a character that is not
    white space: the line terminator and any padding are gone. *)
Theorem reading_raw_stripped (line : bytes) (r : Reading) :
  parse_line line = Some r ->
  starts_with is_space (reading_raw r) = false
  /\ ends_with is_space (reading_raw r) = false.
Proof.
  destruct r as [[w un] raw]. intros H.
  destruct (parse_line_raw _ _ _ _ H) as [-> _]. cbn [reading_raw snd].
  split; [apply strip_head|apply strip_last].
Qed.

Lemma reading_raw_stripped_witness :
  starts_with is_space (u "+012.50 kg") = false
  /\ ends_with is_space (u "+012.50 kg") = false.
Proof.
  exact (reading_raw_stripped (b "  +012.50 kg " ++ [x0d; x0a])
           (Some (u "+012.50"), u "kg", u "+012.50 kg") eq_refl).
Defined.

(** ** The shape of a read window *)



Lemma readlines_window_events lines :
  readlines (window_events lines) = lines.
Proof.
  induction lines as [|l lines IH]; [reflexivity|].
  unfold window_events in *. cbn [flat_map]. rewrite readlines_app, IH.
  now destruct l.
Qed.

Lemma window_events_cons l lines :
  window_events (l :: lines)
  = match l with
    | [] => [Readline []; Slept 2000]
    | _ => [Readline l]
    end ++ window_events lines.
Proof. reflexivity. Qed.

Lemma runs_read_loop_events ser end_ fuel : forall readings w,
  sigint w = None ->
  (turns_left ser (end_ - clock w) w <= fuel)%nat ->
  runs (read_loop fuel ser end_ readings) w
       (fun rs w' evs =>
          exists taken k,
            rx w = taken ++ rx w' /\ (k <> O -> rx w' = []) /\
            evs = window_events (map snd taken ++ repeat [] k) /\
            rs = readings ++ readings_of (map snd taken)).
Proof.
  induction fuel as [|fuel IH]; intros readings w Hs Hfuel.
  - unfold turns_left in Hfuel. rewrite Nat.add_1_r in Hfuel.
    inversion Hfuel.
  - cbn [read_loop].
    apply runs_bind with
      (Q1 := fun now w' evs => now = clock w /\ w' = w /\ evs = []);
      [now apply runs_time_time|].
    intros now w0 evs0 _ (-> & -> & ->). cbn [app].
    destruct (clock w <? end_) eqn:Lt.
    + apply N.ltb_lt in Lt.
      eapply runs_bind; [now apply runs_ser_readline|].
      intros line w1 evs1 Hs1 (-> & Hrx).
      destruct (rx w) as [|[dt l] rest] eqn:Erx.
      * destruct Hrx as (-> & Hr1 & Hc1).
        eapply runs_bind; [now apply runs_time_sleep|].
        intros _ w2 evs2 Hs2 (-> & Hc2 & Hr2).
        eapply runs_weaken.
        { apply IH; [assumption|].
          apply (turns_left_silent ser end_ w w2 fuel); auto;
            try congruence; lia. }
        intros rs w3 evs3 (taken & k & Ht & Hk & -> & ->).
        rewrite Hr2, Hr1 in Ht. symmetry in Ht.
        apply app_eq_nil in Ht as [-> Hr3].
        exists [], (S k). repeat split; auto.
      * destruct Hrx as (-> & Hr1 & Hc1).
        assert (Hturn : forall w2, rx w2 = rest -> clock w1 <= clock w2 ->
                  (turns_left ser (end_ - clock w2) w2 <= fuel)%nat).
        { intros w2 Hr2 Hc2.
          apply (turns_left_line ser end_ w w2 fuel (dt, l)); auto;
            [congruence|lia]. }
        destruct l as [|c l'].
        -- eapply runs_bind; [now apply runs_time_sleep|].
           intros _ w2 evs2 Hs2 (-> & Hc2 & Hr2).
           eapply runs_weaken.
           { apply IH; [assumption|]. apply Hturn; [congruence|lia]. }
           intros rs w3 evs3 (taken & k & Ht & Hk & -> & ->).
           exists ((dt, []) :: taken), k. cbn [app map snd].
           rewrite window_events_cons, readings_of_cons, parse_line_empty.
           split; [now rewrite <- Ht, Hr2, Hr1|]. repeat split; auto.
        -- destruct (parse_line (c :: l')) as [r|] eqn:P.
           ++ eapply runs_weaken.
              { apply IH; [assumption|]. apply Hturn; [assumption|lia]. }
              intros rs w3 evs3 (taken & k & Ht & Hk & -> & ->).
              exists ((dt, c :: l') :: taken), k. cbn [app map snd].
              rewrite window_events_cons, readings_of_cons, P.
              cbn [opt_list]. rewrite <- app_assoc.
              split; [now rewrite <- Ht, Hr1|]. repeat split; auto.
           ++ eapply runs_weaken.
              { apply IH; [assumption|]. apply Hturn; [assumption|lia]. }
              intros rs w3 evs3 (taken & k & Ht & Hk & -> & ->).
              exists ((dt, c :: l') :: taken), k. cbn [app map snd].
              rewrite window_events_cons, readings_of_cons, P.
              split; [now rewrite <- Ht, Hr1|]. repeat split; auto.
    + apply runs_ret; auto. exists [], O. cbn. rewrite app_nil_r.
      repeat split; auto. congruence.
Qed.

Lemma runs_and {A} (m : M A) w (Q1 Q2 : A -> World -> list event -> Prop) :
  runs m w Q1 -> runs m w Q2 ->
  runs m w (fun a w' evs => Q1 a w' evs /\ Q2 a w' evs).
Proof.
  intros (a & w' & evs & E & Hs & Ht & H1) H2.
  destruct (runs_inv _ _ _ _ _ _ H2 E Ht) as [_ H2'].
  exists a, w', evs. auto.
Qed.

Lemma runs_read_window_events ser window_s w :
  sigint w = None ->
  runs (read_window ser window_s) w
       (fun rs w' evs =>
          (exists taken k,
             rx w = taken ++ rx w' /\ (k <> O -> rx w' = []) /\
             evs = window_events (map snd taken ++ repeat [] k) /\
             rs = readings_of (map snd taken))
          /\ clock w + window_s <= clock w').
Proof.
  intros Hs. apply runs_and.
  - unfold read_window.
    apply runs_bind with
      (Q1 := fun now w' evs => now = clock w /\ w' = w /\ evs = []);
      [now apply runs_time_time|].
    intros now w0 evs0 _ (-> & -> & ->). cbn [app].
    apply (runs_read_loop_events ser (clock w + window_s)
             (turns_left ser window_s w) [] w Hs).
    replace (clock w + window_s - clock w) with window_s by lia.
    apply Nat.le_refl.
  - eapply runs_weaken; [now apply runs_read_window|].
    intros rs w' evs (_ & Hc & _). exact Hc.
Qed.

(** A read window does nothing but read and pause.  It takes the lines
    off the serial line in order, none skipped; once there are no more it
    reads empty; every empty read is followed by the 2 ms pause and no
    other read is followed by anything; the readings are those of the lines
    taken; and the lines it did not get to are left for the next window. *)
Theorem read_window_events (ser : Serial) (window_s : N) (w : World) :
  sigint w = None ->
  exists rs w' taken k,
    read_window ser window_s w = (Ok rs, w') /\
    rx w = taken ++ rx w' /\ (k <> O -> rx w' = []) /\
    trace w'
    = trace w ++ window_events (map snd taken ++ repeat [] k) /\
    rs = readings_of (map snd taken).
Proof.
  intros Hs.
  destruct (runs_read_window_events ser window_s w Hs)
    as (rs & w' & evs & E & _ & Ht & (taken & k & Hrx & Hk & -> & ->) & _).
  exists (readings_of (map snd taken)), w', taken, k. auto.
Qed.

Lemma read_window_events_witness :
  exists rs w' taken k,
    read_window the_port 160000 three_replies_world = (Ok rs, w') /\
    rx three_replies_world = taken ++ rx w' /\ (k <> O -> rx w' = []) /\
    trace w' = [] ++ window_events (map snd taken ++ repeat [] k) /\
    rs = readings_of (map snd taken).
Proof.
  exact (read_window_events the_port 160000 three_replies_world eq_refl).
Defined.

(** ** A silent line *)




(** ** The shape of a turn *)

Lemma runs_burst cfg ser w :
  sigint w = None ->
  runs (burst cfg ser) w
       (fun _ w' evs =>
          evs = burst_events cfg /\ rx w' = rx w /\
          clock w + burst_time cfg <= clock w').
Proof. intros Hs. now apply runs_for_range. Qed.

Lemma runs_poll_cycle_events cfg ser last w :
  sigint w = None ->
  runs (poll_cycle cfg ser last) w
       (fun _ w' evs =>
          exists taken k reports,
            rx w = taken ++ rx w' /\ (k <> O -> rx w' = []) /\
            evs = burst_events cfg
                  ++ window_events (map snd taken ++ repeat [] k)
                  ++ map Printed reports /\
            (reports = []
             \/ exists ts wt un raw, reports = [Report ts wt un raw]) /\
            clock w + burst_time cfg + READ_WINDOW_MS cfg * 1000
            <= clock w').
Proof.
  intros Hs. unfold poll_cycle.
  eapply runs_bind; [now apply runs_burst|].
  intros _ w1 evs1 Hs1 (-> & Hr1 & Hc1).
  eapply runs_bind; [now apply runs_read_window_events|].
  intros rs w2 evs2 Hs2 ((taken & k & Hrx & Hk & -> & ->) & Hc2).
  rewrite Hr1 in Hrx.
  destruct (rev (readings_of (map snd taken))) as [|[[wt un] raw] rest].
  - apply runs_ret; auto. exists taken, k, [].
    cbn [map]. repeat split; auto. lia.
  - destruct (negb (ONLY_PRINT_ON_CHANGE cfg) || negb (same_text wt last)).
    + apply runs_bind with
        (Q1 := fun ts w' evs => ts = clock w2 /\ w' = w2 /\ evs = []);
        [now apply runs_datetime_now|].
      intros ts w3 evs3 _ (-> & -> & ->).
      eapply runs_bind; [now apply runs_print|].
      intros _ w4 evs4 Hs4 (-> & Hc4 & Hr4).
      apply runs_ret; auto. exists taken, k, [Report (clock w2) wt un raw].
      rewrite Hr4. cbn [map app].
      repeat split; eauto 7. lia.
    + apply runs_ret; auto. exists taken, k, [].
      cbn [map]. repeat split; auto. lia.
Qed.

(** A turn of the loop is the burst, then the read window, then at most
    one report, in this order and nothing else.  The burst reads nothing:
    the lines the turn takes off the serial line are those its window
    reads, and what arrived beyond them waits for the next turn. *)
Theorem poll_cycle_events (cfg : Config) (ser : Serial) (last : option str)
        (w : World) :
  sigint w = None ->
  exists l' w' taken k reports,
    poll_cycle cfg ser last w = (Ok l', w') /\
    rx w = taken ++ rx w' /\ (k <> O -> rx w' = []) /\
    trace w'
    = trace w ++ burst_events cfg
      ++ window_events (map snd taken ++ repeat [] k)
      ++ map Printed reports /\
    (reports = [] \/ exists ts wt un raw, reports = [Report ts wt un raw]).
Proof.
  intros Hs.
  destruct (runs_poll_cycle_events cfg ser last w Hs)
    as (l' & w' & evs & E & _ & Ht
        & taken & k & reports & Hrx & Hk & -> & Hrep & _).
  exists l', w', taken, k, reports. auto.
Qed.

Lemma poll_cycle_events_witness :
  exists l' w' taken k reports,
    poll_cycle config the_port None three_replies_world = (Ok l', w') /\
    rx three_replies_world = taken ++ rx w' /\ (k <> O -> rx w' = []) /\
    trace w'
    = [] ++ burst_events config
      ++ window_events (map snd taken ++ repeat [] k)
      ++ map Printed reports /\
    (reports = [] \/ exists ts wt un raw, reports = [Report ts wt un raw]).
Proof.
  exact (poll_cycle_events config the_port None three_replies_world eq_refl).
Defined.

(** A turn that Ctrl+C does not interrupt lasts at least as long as the
    pauses of its burst and its read window together: for the constants of
    the program, 1.187 s. *)
Theorem poll_cycle_duration (cfg : Config) (ser : Serial)
        (last : option str) (w : World) :
  sigint w = None ->
  exists l' w',
    poll_cycle cfg ser last w = (Ok l', w') /\
    clock w + burst_time cfg + READ_WINDOW_MS cfg * 1000 <= clock w'.
Proof.
  intros Hs.
  destruct (runs_poll_cycle_events cfg ser last w Hs)
    as (l' & w' & evs & E & _ & _ & _ & _ & _ & _ & _ & _ & _ & Hc).
  exists l', w'. auto.
Qed.

Lemma poll_cycle_duration_witness :
  exists l' w',
    poll_cycle config the_port None three_replies_world = (Ok l', w') /\
    0 + 1027000 + 160000 <= clock w'.
Proof.
  exact (poll_cycle_duration config the_port None three_replies_world
           eq_refl).
Defined.

(** ** What a run prints *)

Lemma last_default {A} (x : A) l d d' : last (x :: l) d = last (x :: l) d'.
Proof.
  revert x. induction l as [|y l IH]; intros x; [reflexivity|].
  exact (IH y).
Qed.

Lemma last_cons {A} (a : A) l d : last (a :: l) d = last l a.
Proof.
  destruct l as [|x l]; [reflexivity|]. exact (last_default x l d a).
Qed.

Lemma run_changes cfg ser l w turns l' w' :
  run cfg ser l w turns l' w' ->
  ONLY_PRINT_ON_CHANGE cfg = true -> sigint w = None ->
  changes l (printed_values (all_prints turns))
  /\ l' = last (printed_values (all_prints turns)) l.
Proof.
  intros Hrun On.
  induction Hrun as [l w|l w evs l1 w1 turns l2 w2 E Ht _ IH]; intros Hs.
  - cbn. auto.
  - destruct (poll_cycle_turn _ _ _ _ _ _ _ Hs E Ht) as [Hs1 Hturn].
    destruct (IH Hs1) as [Hch Hlast].
    unfold all_prints in *. cbn [flat_map fst].
    unfold turn_reports in Hturn.
    destruct (selected evs) as [[[wt un] raw]|].
    + rewrite On in Hturn. cbn [negb orb] in Hturn.
      destruct (same_text wt l) eqn:Same; cbn [negb] in Hturn.
      * destruct Hturn as [-> ->]. cbn [app]. auto.
      * destruct Hturn as [(ts & ->) ->].
        cbn [app printed_values flat_map]. rewrite last_cons.
        repeat split; auto.
        intros ->. now rewrite same_text_refl in Same.
    + destruct Hturn as [-> ->]. cbn [app]. auto.
Qed.

(** With change-only reporting on, no report of a run repeats the value
    text of the report before it, and [last_weight] is the value text of
    the last report printed (or still [None] when none was). *)
Theorem reports_change (cfg : Config) (ser : Serial) (w0 w' : World)
        (l' : option str) (turns : list (list event * option str)) :
  ONLY_PRINT_ON_CHANGE cfg = true ->
  sigint w0 = None ->
  run cfg ser None w0 turns l' w' ->
  changes None (printed_values (all_prints turns))
  /\ l' = last (printed_values (all_prints turns)) None.
Proof.
  intros On Hs Hrun. exact (run_changes _ _ _ _ _ _ _ Hrun On Hs).
Qed.

Lemma reports_change_witness :
  exists l',
    changes None (printed_values (all_prints three_replies_turns))
    /\ l' = last (printed_values (all_prints three_replies_turns)) None.
Proof.
  destruct three_replies_run as (l' & w' & Hrun). exists l'.
  exact (reports_change config the_port three_replies_world w' l'
           three_replies_turns eq_refl eq_refl Hrun).
Defined.

(** ** A program that nothing stops *)







(** ** Reporting every reading *)

Lemma same_reply_every_run :
  exists l' w',
    run config_every the_port None same_reply_world same_reply_every_turns
        l' w'.
Proof.
  destruct (while_true_run config_every the_port 3 None same_reply_world
              eq_refl) as (l' & w' & _ & Hrun).
  exists l', w'.
  replace same_reply_every_turns
    with (turns_of 3 config_every the_port None same_reply_world)
    by (vm_compute; reflexivity).
  exact Hrun.
Qed.

(** With [ONLY_PRINT_ON_CHANGE] off, a run reports the last reading of
    every turn whose window gave one, each once and in order, whether its
    value changed or not; and [last_weight] is the value text of the last
    of them. *)
Theorem every_reading_reported (cfg : Config) (ser : Serial)
        (l : option str) (w0 w' : World) (l' : option str)
        (turns : list (list event * option str)) :
  ONLY_PRINT_ON_CHANGE cfg = false ->
  sigint w0 = None ->
  run cfg ser l w0 turns l' w' ->
  all_reported turns = all_selected turns
  /\ l' = last (map (fun r : Reading => fst (fst r)) (all_selected turns)) l.
Proof.
  intros Off Hs Hrun. revert Hs.
  induction Hrun as [l w|l w evs l1 w1 turns l2 w2 E Ht _ IH]; intros Hs.
  - cbn. auto.
  - destruct (poll_cycle_turn _ _ _ _ _ _ _ Hs E Ht) as [Hs1 Hturn].
    destruct (IH Hs1) as [Hrep Hlast].
    unfold all_reported, all_selected, all_prints in *.
    cbn [flat_map fst]. rewrite flat_map_app.
    unfold turn_reports in Hturn.
    destruct (selected evs) as [[[wt un] raw]|].
    + rewrite Off in Hturn. cbn [negb orb] in Hturn.
      destruct Hturn as [(ts & ->) ->].
      cbn [flat_map reported opt_list app map fst].
      rewrite Hrep, last_cons. auto.
    + destruct Hturn as [-> ->]. cbn [flat_map opt_list app]. auto.
Qed.

Lemma every_reading_reported_witness :
  exists l',
    all_reported same_reply_every_turns = all_selected same_reply_every_turns
    /\ l' = last (map (fun r : Reading => fst (fst r))
                      (all_selected same_reply_every_turns)) None.
Proof.
  destruct same_reply_every_run as (l' & w' & Hrun). exists l'.
  exact (every_reading_reported config_every the_port None same_reply_world
           w' l' same_reply_every_turns eq_refl eq_refl Hrun).
Defined.

(** ** The pre-build script *)

Lemma prefix_append (a x : string) : prefix a (a ++ x) = true.
Proof.
  induction a as [|c a IH]; simpl.
  - now destruct x.
  - destruct (Ascii.ascii_dec c c) as [_|N]; [exact IH | now elim N].
Qed.

Lemma join_one_keeps (path b : string) :
  CopyTest.startswith_sep b = false ->
  exists x, CopyTest.join_one path b = (path ++ x)%string.
Proof.
  intros Hb. unfold CopyTest.join_one. rewrite Hb.
  destruct ((String.length path =? 0)%nat || CopyTest.endswith_sep path);
    eexists; reflexivity.
Qed.

Lemma append_assoc (a x y : string) : ((a ++ x) ++ y = a ++ (x ++ y))%string.
Proof. induction a as [|c a IH]; simpl; [reflexivity | now rewrite IH]. Qed.

Lemma os_path_join_keeps (p : list string) (a : string) :
  forallb (fun b => negb (CopyTest.startswith_sep b)) p = true ->
  exists x, CopyTest.os_path_join a p = (a ++ x)%string.
Proof.
  unfold CopyTest.os_path_join. revert a.
  induction p as [|b p IH]; simpl; intros a Hp.
  - exists ""%string. induction a as [|c a IHa]; simpl; [reflexivity | now rewrite <- IHa].
  - apply andb_true_iff in Hp as [Hb Hp]. apply negb_true_iff in Hb.
    destruct (join_one_keeps a b Hb) as [x Hx]. rewrite Hx.
    destruct (IH (a ++ x)%string Hp) as [y Hy]. rewrite Hy.
    exists (x ++ y)%string. apply append_assoc.
Qed.

Lemma os_path_join_under (p : list string) (a : string) :
  forallb (fun b => negb (CopyTest.startswith_sep b)) p = true ->
  prefix a (CopyTest.os_path_join a p) = true.
Proof.
  intros Hp. destruct (os_path_join_keeps p a Hp) as [x ->].
  apply prefix_append.
Qed.

Lemma dict_get_test_mapping (name file : string) :
  CopyTest.dict_get name CopyTest.test_mapping = Some file ->
  In (name, file) CopyTest.test_mapping /\
  CopyTest.startswith_sep file = false.
Proof.
  unfold CopyTest.test_mapping. simpl.
  repeat match goal with
         | |- context [String.eqb ?a ?b] =>
           let E := fresh "E" in
           destruct (String.eqb a b) eqn:E;
           [apply String.eqb_eq in E; subst name|]
         end;
    intros H; inversion H; subst; split; auto 6; reflexivity.
Qed.

Lemma dict_get_none (name : string) :
  (forall file, ~ In (name, file) CopyTest.test_mapping) ->
  CopyTest.dict_get name CopyTest.test_mapping = None.
Proof.
  intros Hn. destruct (CopyTest.dict_get name CopyTest.test_mapping) eqn:E.
  - apply dict_get_test_mapping in E as [E _]. now elim (Hn s).
  - reflexivity.
Qed.

Lemma dict_get_some (name file : string) :
  In (name, file) CopyTest.test_mapping ->
  CopyTest.dict_get name CopyTest.test_mapping = Some file.
Proof.
  unfold CopyTest.test_mapping. simpl.
  intros [H|[H|[H|[]]]]; inversion H; subst; reflexivity.
Qed.

Lemma skipn_added {A} (l r : list A) : skipn (length l) (l ++ r) = r.
Proof. induction l; simpl; auto. Qed.

Ltac script_cases :=
  unfold CopyTest.script, CopyTest.os_path_exists, CopyTest.shutil_copy2,
    CopyTest.print, CopyTest.log;
  repeat match goal with
         | |- context [match ?e ?k with Some _ => _ | None => _ end] =>
           let E := fresh "E" in destruct (e k) eqn:E
         | |- context [if CopyTest.answers ?w ?t ?p then _ else _] =>
           let E := fresh "A" in destruct (CopyTest.answers w t p) eqn:E
         | |- context [if CopyTest.copies ?w ?t ?s ?d then _ else _] =>
           let E := fresh "C" in destruct (CopyTest.copies w t s d) eqn:E
         | _ => progress cbn [CopyTest.answers CopyTest.copies CopyTest.trace
                                fst snd]
         end.

Lemma splits_in {A} (pre : list A) (x : A) (post l : list A) :
  l = pre ++ x :: post -> In (pre, x, post) (splits l).
Proof.
  revert l. induction pre as [|a pre IH]; intros l ->; simpl.
  - now left.
  - right. apply in_map_iff. exists (pre, x, post). split; [reflexivity|].
    now apply IH.
Qed.

(** A run only adds to the trace: [added] is all it did. *)
Lemma script_trace (env : CopyTest.Env) (w : CopyTest.World) :
  CopyTest.trace (snd (CopyTest.script env w))
  = CopyTest.trace w ++ CopyTest.added env w.
Proof.
  unfold CopyTest.added.
  script_cases.
  all: repeat rewrite <- app_assoc; rewrite ?skipn_added; try reflexivity.
  all: now rewrite skipn_all, app_nil_r.
Qed.

#[local] Opaque CopyTest.os_path_join.

(** Whatever the build environment and the file system: every copy
    the script makes takes a file it has just been told exists, inside
    PROJECT_DIR, to main/main.c or main/pin_definitions.h of PROJECT_DIR,
    for an environment of [test_mapping]; and pin_definitions.h is copied
    only after main.c was. *)
Theorem script_copies_inside_project
  (env : CopyTest.Env) (w : CopyTest.World)
  (pre : list CopyTest.event) (src dst : string) (post : list CopyTest.event) :
  CopyTest.added env w = pre ++ CopyTest.Copied src dst :: post ->
  In (CopyTest.Asked src true) pre /\
  exists name file dir,
    env "PIOENV"%string = Some name /\
    In (name, file) CopyTest.test_mapping /\
    env "PROJECT_DIR"%string = Some dir /\
    prefix dir src = true /\
    prefix dir dst = true /\
    ((src = CopyTest.os_path_join dir [file] /\
      dst = CopyTest.os_path_join dir ["main"; "main.c"]%string) \/
     (src = CopyTest.os_path_join dir
              ["test"; "common"; "pin_definitions.h"]%string /\
      dst = CopyTest.os_path_join dir ["main"; "pin_definitions.h"]%string /\
      In (CopyTest.Copied (CopyTest.os_path_join dir [file])
            (CopyTest.os_path_join dir ["main"; "main.c"]%string)) pre)).
Proof.
  unfold CopyTest.added. script_cases.
  all: repeat rewrite <- app_assoc; rewrite ?skipn_added, ?skipn_all.
  all: intros H; apply splits_in in H; cbn [splits map fst snd In] in H.
  all: repeat (destruct H as [H|H]; [try discriminate H|]); try contradiction.
  all: inversion H; subst; clear H.
  all: match goal with
       | E : CopyTest.dict_get _ _ = Some _ |- _ =>
         apply dict_get_test_mapping in E as [Hin Hsep]
       end.
  all: (split; [simpl; now auto 10|]).
  all: do 3 eexists; (split; [reflexivity|]).
  all: (split; [eassumption|]); (split; [reflexivity|]).
  all: (split; [apply os_path_join_under; cbn [forallb]; rewrite ?Hsep; reflexivity|]).
  all: (split; [apply os_path_join_under; reflexivity|]).
  all: try (left; split; reflexivity).
  all: right; split; [reflexivity|]; split; [reflexivity|]; simpl; now auto 10.
Qed.

Lemma script_copies_inside_project_witness :
  CopyTest.added CopyTest.blink_env CopyTest.full_disk
  = [CopyTest.Asked "/home/dev/scale/test/test_00_blink/test_00_blink.c" true;
     CopyTest.Printed
       "Copying test/test_00_blink/test_00_blink.c to main/main.c";
     CopyTest.Copied "/home/dev/scale/test/test_00_blink/test_00_blink.c"
       "/home/dev/scale/main/main.c";
     CopyTest.Asked "/home/dev/scale/test/common/pin_definitions.h" true]
    ++ CopyTest.Copied "/home/dev/scale/test/common/pin_definitions.h"
         "/home/dev/scale/main/pin_definitions.h" :: [] /\
  In (CopyTest.Asked "/home/dev/scale/test/common/pin_definitions.h" true)
     [CopyTest.Asked "/home/dev/scale/test/test_00_blink/test_00_blink.c" true;
      CopyTest.Printed
        "Copying test/test_00_blink/test_00_blink.c to main/main.c";
      CopyTest.Copied "/home/dev/scale/test/test_00_blink/test_00_blink.c"
        "/home/dev/scale/main/main.c";
      CopyTest.Asked "/home/dev/scale/test/common/pin_definitions.h" true].
Proof.
  split; [reflexivity|].
  exact (proj1 (script_copies_inside_project CopyTest.blink_env
                  CopyTest.full_disk _ _ _ _ eq_refl)).
Defined.

(** For an environment that is not a key of [test_mapping] the
    script does nothing at all: it asks for no file, prints nothing, copies
    nothing and ends without an error, whether PROJECT_DIR is set or not. *)
Theorem script_unknown_env
  (env : CopyTest.Env) (w : CopyTest.World) (name : string) :
  env "PIOENV"%string = Some name ->
  (forall file, ~ In (name, file) CopyTest.test_mapping) ->
  CopyTest.script env w = (CopyTest.Done, w).
Proof.
  intros He Hn. unfold CopyTest.script.
  now rewrite He, (dict_get_none name Hn).
Qed.

Lemma script_unknown_env_witness :
  CopyTest.script CopyTest.release_env CopyTest.full_disk
  = (CopyTest.Done, CopyTest.full_disk).
Proof.
  apply (script_unknown_env CopyTest.release_env CopyTest.full_disk
           "esp32dev"%string eq_refl).
  intros file [H|[H|[H|[]]]]; discriminate H.
Defined.

(** When the test file of the environment is not there, the script
    prints the warning that names it and stops without an error: main/main.c
    is not written, and pin_definitions.h is neither looked for nor
    copied. *)
Theorem script_missing_test_file
  (env : CopyTest.Env) (w : CopyTest.World) (name file dir : string) :
  env "PIOENV"%string = Some name ->
  In (name, file) CopyTest.test_mapping ->
  env "PROJECT_DIR"%string = Some dir ->
  CopyTest.answers w (CopyTest.trace w) (CopyTest.os_path_join dir [file])
  = false ->
  fst (CopyTest.script env w) = CopyTest.Done /\
  CopyTest.added env w
  = [CopyTest.Asked (CopyTest.os_path_join dir [file]) false;
     CopyTest.Printed ("Warning: Test file " ++ file ++ " not found!")].
Proof.
  intros He Hin Hd Ha. apply dict_get_some in Hin.
  unfold CopyTest.added, CopyTest.script, CopyTest.os_path_exists.
  rewrite He, Hin, Hd, Ha.
  cbn [CopyTest.print CopyTest.log CopyTest.trace fst snd].
  split; [reflexivity|].
  now rewrite <- app_assoc, skipn_added.
Qed.

Lemma script_missing_test_file_witness :
  fst (CopyTest.script CopyTest.blink_env CopyTest.empty_disk) = CopyTest.Done /\
  CopyTest.added CopyTest.blink_env CopyTest.empty_disk
  = [CopyTest.Asked
       (CopyTest.os_path_join "/home/dev/scale"
          ["test/test_00_blink/test_00_blink.c"%string]) false;
     CopyTest.Printed
       ("Warning: Test file " ++ "test/test_00_blink/test_00_blink.c"
        ++ " not found!")].
Proof.
  apply (script_missing_test_file CopyTest.blink_env CopyTest.empty_disk
           "test_00_blink" "test/test_00_blink/test_00_blink.c"
           "/home/dev/scale" eq_refl);
    [simpl; auto | reflexivity | reflexivity].
Defined.

(** How the script ends.  A KeyError comes from a variable that is
    not set and before the script has done anything; a failed copy is the
    last thing the script does, so after a failed copy of main.c
    pin_definitions.h is not looked for; in every other case, a missing
    file included, the script ends normally and no copy has failed. *)
Theorem script_errors (env : CopyTest.Env) (w : CopyTest.World) :
  match fst (CopyTest.script env w) with
  | CopyTest.KeyError key =>
    env key = None /\ snd (CopyTest.script env w) = w
  | CopyTest.CopyError src dst =>
    exists pre, CopyTest.added env w = pre ++ [CopyTest.Refused src dst]
  | CopyTest.Done =>
    forall src dst, ~ In (CopyTest.Refused src dst) (CopyTest.added env w)
  end.
Proof.
  unfold CopyTest.added. script_cases.
  all: repeat rewrite <- app_assoc; rewrite ?skipn_added, ?skipn_all.
  all: try (split; [assumption | now destruct w]).
  all: try (intros src dst Hin; simpl in Hin;
            repeat (destruct Hin as [Hin|Hin]; [discriminate Hin|]);
            exact Hin).
  - now exists [CopyTest.Asked (CopyTest.os_path_join s1 [s0]) true;
                CopyTest.Printed ("Copying " ++ s0 ++ " to main/main.c");
                CopyTest.Copied (CopyTest.os_path_join s1 [s0])
                  (CopyTest.os_path_join s1 ["main"; "main.c"]%string);
                CopyTest.Asked
                  (CopyTest.os_path_join s1
                     ["test"; "common"; "pin_definitions.h"]%string) true].
  - now exists [CopyTest.Asked (CopyTest.os_path_join s1 [s0]) true;
                CopyTest.Printed ("Copying " ++ s0 ++ " to main/main.c")].
Qed.
